(** * HedgeDoc: history slice, note permissions and authorship decorations

    A shallow embedding of parts of the HedgeDoc code base, and the
    properties proved of them:

    - [frontend/src/redux/history/slice.ts]: the reducers of the history
      slice (modules [History], [HistoryTheory]);
    - [backend/src/permissions/permissions.service.ts], of which only the
      test-suite [permissions.service.spec.ts] is at hand: the service is
      modelled from its description and pinned by the expectations of the
      test-suite (modules [Permissions], [PermissionsTheory]);
    - [frontend/.../authorship-ranges/authorship-layers-extensions.ts]: the
      CodeMirror state field that keeps the authorship decorations (modules
      [Authorship], [AuthorshipSpec], [AuthorshipTheory]), on a model of
      the range sets of CodeMirror (modules [CodeMirror],
      [CodeMirrorTheory]); what the field keeps true along the
      transactions of an editor is in [AuthorshipCoverage] and
      [AuthorshipInvariants];
    - the helpers of [permissions.service.spec.ts] that put the grants of a
      note in every order (modules [PermissionsSuite],
      [PermissionsSuiteTheory]);
    - the token check of the dialogue that exports a note to a GitHub Gist
      (modules [GistExport], [GistExportTheory]).

    Further properties of the history slice are in [HistoryInvariants].

    Definitions come first, theorems after them. *)

From stdpp Require Import base option list strings gmap sorting.
From Stdlib Require Import ZArith Lia Factorial.

Local Open Scope Z_scope.

(* ===================================================================== *)
(** * The history slice *)
(* ===================================================================== *)

Module History.

Section Slice.

(** [HistoryEntryWithOrigin] is declared in [./types], which is not part
    of the sources at hand: the reducers only read the [identifier] of an
    entry, so the entry type and this projection are taken as
    parameters. *)
Context {HistoryEntry : Type}.
Variable identifier : HistoryEntry → string.

(** [HistoryState = HistoryEntryWithOrigin[]] *)
Definition HistoryState := list HistoryEntry.

(** The two payloads; the field [noteId] of each has a name of its own. *)
Record UpdateEntryPayload := {
  upd_noteId : string;
  newEntry : HistoryEntry
}.

Record RemoveEntryPayload := {
  rem_noteId : string
}.

(** [setEntries: (state, action) => action.payload] *)
Definition setEntries (state payload : HistoryState) : HistoryState :=
  payload.

(** [state.filter((entry) => entry.identifier !== action.payload.noteId)
          .concat(action.payload.newEntry)] *)
Definition updateEntry (state : HistoryState) (payload : UpdateEntryPayload)
  : HistoryState :=
  filter (λ entry, identifier entry ≠ upd_noteId payload) state
    ++ [newEntry payload].

(** [state.filter((entry) => entry.identifier !== action.payload.noteId)] *)
Definition removeEntry (state : HistoryState) (payload : RemoveEntryPayload)
  : HistoryState :=
  filter (λ entry, identifier entry ≠ rem_noteId payload) state.

(** The list the specification describes, written out by recursion on the
    state: drop every entry whose identifier is [noteId], keep the others
    where they are. *)
Fixpoint without_note (noteId : string) (state : HistoryState)
  : HistoryState :=
  match state with
  | [] => []
  | entry :: rest =>
      if decide (identifier entry = noteId)
      then without_note noteId rest
      else entry :: without_note noteId rest
  end.

End Slice.

End History.

(* ===================================================================== *)
(** * Note permissions *)
(* ===================================================================== *)

Module Permissions.

(** ** Entities

    The entities are the ones the test-suite builds: a user is compared by
    its [id], a group has a name, a [special] flag and its members, a
    permission pairs a grantee with the [canEdit] flag ([up_canEdit] for a
    user, [gp_canEdit] for a group), and a note has an owner (possibly
    none) and the two collections of permissions. *)

Record User := {
  id : Z;
  username : string
}.

Record Group := {
  name : string;
  special : bool;
  members : list User
}.

Record NoteUserPermission := {
  up_user : User;
  up_canEdit : bool
}.

Record NoteGroupPermission := {
  gp_group : Group;
  gp_canEdit : bool
}.

Record Note := {
  owner : option User;
  userPermissions : list NoteUserPermission;
  groupPermissions : list NoteGroupPermission
}.

(** [config/guest_access.enum] and [config/default-access-level.enum] *)
Inductive GuestAccess := DENY | READ | WRITE | CREATE.
Inductive DefaultAccessLevel := LevelNONE | LevelREAD | LevelWRITE.

(** The part of [NoteConfig] the test-suite sets:
    [guestAccess], [permissions.default.everyone] and
    [permissions.default.loggedIn]. *)
Record NoteConfig := {
  guestAccess : GuestAccess;
  default_everyone : DefaultAccessLevel;
  default_loggedIn : DefaultAccessLevel
}.

(** [groups/groups.special]: the names of the two special groups. *)
Definition EVERYONE : string := "_EVERYONE".
Definition LOGGED_IN : string := "_LOGGED_IN".

#[global] Instance GuestAccess_eq_dec : EqDecision GuestAccess.
Proof. solve_decision. Defined.
#[global] Instance DefaultAccessLevel_eq_dec : EqDecision DefaultAccessLevel.
Proof. solve_decision. Defined.

(** ** The access checks *)

(** Modelled from the spec: [isOwner] of [permissions.service.ts], which
    is missing; only its test-suite is at hand.  The owner check succeeds
    when a user is given, the note has an owner, and the two have the same
    id ([isOwner(user1, noteNobodyRead)] holds, [isOwner(user1,
    noteUser1Read)] does not). *)
Definition isOwner (user : option User) (note : Note) : bool :=
  match user, owner note with
  | Some u, Some o => bool_decide (id o = id u)
  | _, _ => false
  end.

(** Modelled from the spec: the per-user layer of [permissions.service.ts]
    (missing).  The grants of the note are searched in order; the first
    grant of the user that is strong enough for the request ends the
    search. *)
Fixpoint searchUserPermissions (u : User) (wantEdit : bool)
    (perms : list NoteUserPermission) : bool :=
  match perms with
  | [] => false
  | p :: rest =>
      if bool_decide (id (up_user p) = id u) && (up_canEdit p || negb wantEdit)
      then true
      else searchUserPermissions u wantEdit rest
  end.

Definition hasPermissionUser (user : option User) (note : Note)
    (wantEdit : bool) : bool :=
  match user with
  | None => false
  | Some u => searchUserPermissions u wantEdit (userPermissions note)
  end.

(** Modelled from the spec: the gate of the guest-access policy enum
    (missing with [permissions.service.ts]).  The test-suite fixes it:
    under [DENY] a guest gets nothing, under [READ] a guest may read but
    never write, under [WRITE] and [CREATE] a guest may do both. *)
Definition guestAccessAllows (policy : GuestAccess) (wantEdit : bool) : bool :=
  match policy with
  | DENY => false
  | READ => negb wantEdit
  | WRITE | CREATE => true
  end.

(** Modelled from the spec: the default access level of a special group
    caps what a grant to that group gives (missing with
    [permissions.service.ts]).  [createNoteGroupPermissionsCombinations]
    of the test-suite fixes it for [EVERYONE]: under level write the grant
    counts as it is, under level read it gives read access only, under
    level none it gives nothing. *)
Definition defaultAccessAllows (level : DefaultAccessLevel) (wantEdit : bool)
    : bool :=
  match level with
  | LevelNONE => false
  | LevelREAD => negb wantEdit
  | LevelWRITE => true
  end.

Fixpoint isMember (u : User) (ms : list User) : bool :=
  match ms with
  | [] => false
  | m :: rest => if bool_decide (id m = id u) then true else isMember u rest
  end.

(** Does the grant [gp] cover the caller?  A special group covers by its
    name: [LOGGED_IN] every authenticated user, [EVERYONE] every caller as
    far as the default access level of [EVERYONE] lets it.  An ordinary
    group covers its members. *)
Definition groupCovers (config : NoteConfig) (user : option User)
    (wantEdit : bool) (g : Group) : bool :=
  if special g then
    (bool_decide (is_Some user) && bool_decide (name g = LOGGED_IN))
    || (bool_decide (name g = EVERYONE)
        && defaultAccessAllows (default_everyone config) wantEdit)
  else
    match user with
    | Some u => isMember u (members g)
    | None => false
    end.

(** Modelled from the spec: the per-group layer of
    [permissions.service.ts] (missing): the group grants are searched in
    order for one that is strong enough and covers the caller. *)
Fixpoint searchGroupPermissions (config : NoteConfig) (user : option User)
    (wantEdit : bool) (perms : list NoteGroupPermission) : bool :=
  match perms with
  | [] => false
  | gp :: rest =>
      if (gp_canEdit gp || negb wantEdit)
         && groupCovers config user wantEdit (gp_group gp)
      then true
      else searchGroupPermissions config user wantEdit rest
  end.

Definition hasPermissionGroup (config : NoteConfig) (user : option User)
    (note : Note) (wantEdit : bool) : bool :=
  match user with
  | None =>
      if guestAccessAllows (guestAccess config) wantEdit
      then searchGroupPermissions config None wantEdit (groupPermissions note)
      else false
  | Some _ =>
      searchGroupPermissions config user wantEdit (groupPermissions note)
  end.

(** Modelled from the spec: [mayRead] and [mayWrite] of
    [permissions.service.ts] (missing): "owner check, then per-user grant,
    then per-group grant with special-group default-access fallback gated
    by a guest-access policy enum", "a simple layered boolean
    short-circuit". *)
Definition mayRead (config : NoteConfig) (user : option User) (note : Note)
    : bool :=
  isOwner user note
  || hasPermissionUser user note false
  || hasPermissionGroup config user note false.

Definition mayWrite (config : NoteConfig) (user : option User) (note : Note)
    : bool :=
  isOwner user note
  || hasPermissionUser user note true
  || hasPermissionGroup config user note true.

(** Modelled from the spec: [mayCreate] of [permissions.service.ts]
    (missing): an authenticated user may create notes, a guest only under
    the [CREATE] policy. *)
Definition mayCreate (config : NoteConfig) (user : option User) : bool :=
  match user with
  | Some _ => true
  | None => bool_decide (guestAccess config = CREATE)
  end.

(** ** Updating the permissions of a note *)

Record NoteUserPermissionUpdateDto := {
  dto_username : string;
  dto_user_canEdit : bool
}.

Record NoteGroupPermissionUpdateDto := {
  dto_groupName : string;
  dto_group_canEdit : bool
}.

Record NotePermissionsUpdateDto := {
  sharedToUsers : list NoteUserPermissionUpdateDto;
  sharedToGroups : list NoteGroupPermissionUpdateDto
}.

(** The errors of [errors/errors] an update can end in. *)
Inductive PermissionError :=
| PermissionsUpdateInconsistentError
| NotInDBError.

(** Modelled from the spec: the duplicate check of
    [updateNotePermissions] (missing): a list of names has a duplicate when
    the set of its names is smaller than the list. *)
Definition checkArrayForDuplicates (names : list string) : bool :=
  negb (bool_decide (size (list_to_set names : gset string) = length names)).

Fixpoint createUserPermissions (findUser : string → option User)
    (dtos : list NoteUserPermissionUpdateDto)
    : PermissionError + list NoteUserPermission :=
  match dtos with
  | [] => inr []
  | d :: rest =>
      match findUser (dto_username d) with
      | None => inl NotInDBError
      | Some u =>
          match createUserPermissions findUser rest with
          | inl e => inl e
          | inr ps =>
              inr ({| up_user := u; up_canEdit := dto_user_canEdit d |} :: ps)
          end
      end
  end.

Fixpoint createGroupPermissions (findGroup : string → option Group)
    (dtos : list NoteGroupPermissionUpdateDto)
    : PermissionError + list NoteGroupPermission :=
  match dtos with
  | [] => inr []
  | d :: rest =>
      match findGroup (dto_groupName d) with
      | None => inl NotInDBError
      | Some g =>
          match createGroupPermissions findGroup rest with
          | inl e => inl e
          | inr ps =>
              inr ({| gp_group := g; gp_canEdit := dto_group_canEdit d |} :: ps)
          end
      end
  end.

(** Modelled from the spec: [updateNotePermissions] of
    [permissions.service.ts] (missing): "permission updates reject the
    request when the caller supplies duplicate grants for the same user or
    group, surfaced as a distinct inconsistency error"; otherwise the
    permissions of the note are replaced by the ones requested, each
    grantee looked up by name (the test-suite mocks the two lookups). *)
Definition updateNotePermissions
    (findUser : string → option User) (findGroup : string → option Group)
    (note : Note) (newPermissions : NotePermissionsUpdateDto)
    : PermissionError + Note :=
  if checkArrayForDuplicates (dto_username <$> sharedToUsers newPermissions)
     || checkArrayForDuplicates (dto_groupName <$> sharedToGroups newPermissions)
  then inl PermissionsUpdateInconsistentError
  else
    match createUserPermissions findUser (sharedToUsers newPermissions) with
    | inl e => inl e
    | inr ups =>
        match createGroupPermissions findGroup (sharedToGroups newPermissions) with
        | inl e => inl e
        | inr gps =>
            inr {| owner := owner note;
                   userPermissions := ups;
                   groupPermissions := gps |}
        end
    end.

(** ** Predicates used to state the properties *)

(** The grant [p] is a grant to [u] that is strong enough for the
    request. *)
Definition userGrant (u : User) (wantEdit : bool) (p : NoteUserPermission)
    : Prop :=
  id (up_user p) = id u ∧ (up_canEdit p = true ∨ wantEdit = false).

(** A user belongs to a group, whatever the configuration: to the two
    special groups by being authenticated, to an ordinary group by being
    one of its members. *)
Definition belongsTo (u : User) (g : Group) : Prop :=
  if special g
  then name g = LOGGED_IN ∨ name g = EVERYONE
  else ∃ m, m ∈ members g ∧ id m = id u.

(** A grant to the special group [EVERYONE]. *)
Definition everyoneGrant (gp : NoteGroupPermission) : Prop :=
  special (gp_group gp) = true ∧ name (gp_group gp) = EVERYONE.

(** Two entries at different places of a list agree under [key]. *)
Definition twoGrantsFor {A} (key : A → string) (l : list A) : Prop :=
  ∃ (i j : nat) (a b : A),
    i ≠ j ∧ l !! i = Some a ∧ l !! j = Some b ∧ key a = key b.

Definition with_groupPermissions (note : Note)
    (perms : list NoteGroupPermission) : Note :=
  {| owner := owner note;
     userPermissions := userPermissions note;
     groupPermissions := perms |}.

(** ** The fixtures of the test-suite *)

Definition user1 : User := {| id := 1; username := "user1" |}.
Definition user2 : User := {| id := 2; username := "user2" |}.

Definition createNote (o : User) : Note :=
  {| owner := Some o; userPermissions := []; groupPermissions := [] |}.

Definition createUserPermission (u : User) (canEdit : bool) : NoteUserPermission :=
  {| up_user := u; up_canEdit := canEdit |}.

Definition with_userPermissions (note : Note)
    (perms : list NoteUserPermission) : Note :=
  {| owner := owner note;
     userPermissions := perms;
     groupPermissions := groupPermissions note |}.

Definition everybody : Group :=
  {| name := EVERYONE; special := true; members := [] |}.
Definition loggedIn : Group :=
  {| name := LOGGED_IN; special := true; members := [] |}.
Definition user1group : Group :=
  {| name := "user1group"; special := false; members := [user1] |}.
Definition user2group : Group :=
  {| name := "user2group"; special := false; members := [user2] |}.

Definition noteNobodyRead : Note := createNote user1.
Definition noteUser1Read : Note :=
  with_userPermissions (createNote user2) [createUserPermission user1 false].
Definition noteUser2Read : Note :=
  with_userPermissions (createNote user2) [createUserPermission user2 false].
Definition noteAllUsersRead1 : Note :=
  with_userPermissions (createNote user2)
    [createUserPermission user1 false; createUserPermission user2 false].
Definition noteUser2Write : Note :=
  with_userPermissions (createNote user2) [createUserPermission user1 true].
Definition noteAllWrite2 : Note :=
  with_userPermissions (createNote user2)
    [createUserPermission user2 true; createUserPermission user1 true].
Definition noteEverybodyNone : Note := createNote user1.
Definition noteEverybodyRead : Note :=
  with_groupPermissions (createNote user1)
    [{| gp_group := everybody; gp_canEdit := false |}].
Definition noteEverybodyWrite : Note :=
  with_groupPermissions (createNote user1)
    [{| gp_group := everybody; gp_canEdit := true |}].

Definition user1and2group : Group :=
  {| name := "user1and2group"; special := false; members := [user1; user2] |}.
Definition user2and1group : Group :=
  {| name := "user2and1group"; special := false; members := [user2; user1] |}.

Definition createNoteGroupPermission (g : Group) (write : bool)
    : NoteGroupPermission :=
  {| gp_group := g; gp_canEdit := write |}.

(** [createAllNoteGroupPermissions]: the five rows of choices, [None] for
    the [null] that leaves a row out. *)
Definition createAllNoteGroupPermissions : list (list (option NoteGroupPermission)) :=
  [ [Some (createNoteGroupPermission user1group false);
     Some (createNoteGroupPermission user1and2group false);
     Some (createNoteGroupPermission user2and1group false); None];
    [Some (createNoteGroupPermission user2and1group true);
     Some (createNoteGroupPermission user1and2group true);
     Some (createNoteGroupPermission user1group true); None];
    [Some (createNoteGroupPermission everybody false);
     Some (createNoteGroupPermission everybody true); None];
    [Some (createNoteGroupPermission loggedIn false);
     Some (createNoteGroupPermission loggedIn true); None];
    [Some (createNoteGroupPermission user2group true);
     Some (createNoteGroupPermission user2group false); None] ].

(** [NoteGroupPermissionWithResultForUser] *)
Record NoteGroupPermissionWithResultForUser := {
  permissions : list NoteGroupPermission;
  allowsRead : bool;
  allowsWrite : bool
}.

(** The body of the five nested loops of
    [createNoteGroupPermissionsCombinations]: one choice per row, and the
    answers the test expects for [user1]. *)
Definition combination (everyoneDefaultPermission : DefaultAccessLevel)
    (group0 group1 group2 group3 group4 : option NoteGroupPermission)
    : NoteGroupPermissionWithResultForUser :=
  let insert0 := from_option (λ g, [g]) [] group0 in
  let read0 := bool_decide (is_Some group0) in
  let insert1 := from_option (λ g, [g]) [] group1 in
  let read1 := read0 || bool_decide (is_Some group1) in
  let write1 := bool_decide (is_Some group1) in
  let insert2 := from_option (λ g, [g]) [] group2 in
  let write2 :=
    match group2, everyoneDefaultPermission with
    | Some g, LevelWRITE => write1 || gp_canEdit g
    | _, _ => write1
    end in
  let read2 :=
    match group2, everyoneDefaultPermission with
    | Some _, (LevelWRITE | LevelREAD) => true
    | _, _ => read1
    end in
  let insert3 := from_option (λ g, [g]) [] group3 in
  let read3 := read2 || bool_decide (is_Some group3) in
  let write3 := from_option (λ g, write2 || gp_canEdit g) write2 group3 in
  let insert4 := from_option (λ g, [g]) [] group4 in
  {| permissions := insert0 ++ insert1 ++ insert2 ++ insert3 ++ insert4;
     allowsRead := read3;
     allowsWrite := write3 |}.

Definition createNoteGroupPermissionsCombinations
    (everyoneDefaultPermission : DefaultAccessLevel)
    : list NoteGroupPermissionWithResultForUser :=
  match createAllNoteGroupPermissions with
  | [row0; row1; row2; row3; row4] =>
      group0 ← row0; group1 ← row1; group2 ← row2; group3 ← row3; group4 ← row4;
      [combination everyoneDefaultPermission group0 group1 group2 group3 group4]
  | _ => []
  end.

(** The check of one test of [check if groups work with]: a note of
    [user2] with the permissions of the combination, asked for [user1]. *)
Definition groupTestPasses (config : NoteConfig)
    (permission : NoteGroupPermissionWithResultForUser) : bool :=
  let note := with_groupPermissions (createNote user2) (permissions permission) in
  bool_decide (mayWrite config (Some user1) note = allowsWrite permission)
  && bool_decide (mayRead config (Some user1) note = allowsRead permission).

(** The configuration of the guest tests: both default levels write. *)
Definition guestConfig (policy : GuestAccess) : NoteConfig :=
  {| guestAccess := policy;
     default_everyone := LevelWRITE;
     default_loggedIn := LevelWRITE |}.

End Permissions.

(* ===================================================================== *)
(** * The parts of CodeMirror the authorship extension calls *)
(* ===================================================================== *)

(** [@codemirror/state] and [@codemirror/view] are libraries, not part of
    the repository.  This module models what the extension uses of them:
    mark decorations and their ranges, the layered [RangeSet] with its
    [update] method, and state effects.  The model follows the
    implementation of [RangeSet.update], [RangeSetBuilder] and
    [MarkDecoration.range]; where it abstracts, the comments say so. *)

Module CodeMirror.

(** Exceptions: the [RangeError] of an empty mark and the [Error] of the
    range-set builder. *)
Inductive Exception :=
| RangeError (message : string)
| Error (message : string).

(** ** Computations with state that may throw

    The callbacks handed to the library change variables of the
    extension and may throw, so the library functions that call them are
    written in a monad: a computation takes the state and returns the
    state it leaves together with an exception or a value.  The state
    reached when an exception is thrown is kept: what was assigned before
    the [throw] stays assigned. *)
Definition M (S A : Type) : Type := S → S * (Exception + A).

Definition ret {S A} (a : A) : M S A := λ s, (s, inr a).

Definition bind {S A B} (m : M S A) (k : A → M S B) : M S B :=
  λ s, match m s with
       | (s', inl e) => (s', inl e)
       | (s', inr a) => k a s'
       end.

Definition gets {S A} (f : S → A) : M S A := λ s, (s, inr (f s)).

Definition modify {S} (f : S → S) : M S unit := λ s, (f s, inr tt).

Definition liftE {S A} (r : Exception + A) : M S A := λ s, (s, r).

Declare Scope cm_scope.
Delimit Scope cm_scope with cm.
Notation "x <- m ;; k" := (bind m (λ x, k))
  (at level 100, m at level 99, right associativity) : cm_scope.
Notation "m ;;; k" := (bind m (λ _, k))
  (at level 100, right associativity) : cm_scope.

(** ** Decorations and ranges *)

(** The spec of a mark decoration as far as the extension fills it: the
    CSS class and the attributes (a [Record<string, string>], possibly
    absent). *)
Record Decoration := {
  class : string;
  attributes : option (gmap string string)
}.

(** [Range<Decoration>] *)
Record Range := {
  from : Z;
  to : Z;
  value : Decoration
}.

#[global] Instance Decoration_eq_dec : EqDecision Decoration.
Proof. solve_decision. Defined.
#[global] Instance Range_eq_dec : EqDecision Range.
Proof. solve_decision. Defined.

(** [Decoration.mark(spec).range(from, to)]: a mark may not be empty. *)
Definition mark_range (spec : Decoration) (from to : Z) : Exception + Range :=
  if bool_decide (to ≤ from)
  then inl (RangeError "Mark decorations may not be empty")
  else inr {| from := from; to := to; value := spec |}.

(** ** Range sets

    A [RangeSet] is a list of layers.  Within a layer the ranges are
    ordered and do not overlap; a range that overlaps its predecessor
    lives in a later layer.  The chunks into which the library cuts a
    layer are left out: they only group consecutive ranges of a layer.
    [Decoration.none], the empty set, is the empty list of layers.

    All decorations of the authorship field are marks that include
    neither end, so all ranges have the same [startSide] and the same
    [endSide], with [endSide < startSide]: a range that starts where the
    previous one ends comes after it, and two ranges with the same [from]
    compare equal.  Positions are document positions, well inside the
    sentinels [-C.Far] and [C.Far] of the library.

    That is the domain of this model.  The library marks "no chunk
    started" by a negative [chunkStart], starts its cursor with [goto(0)],
    and gives an exhausted cursor the position [C.Far]: a range that
    starts below 0 is stored shifted or skipped, and an added range that
    starts at [C.Far] or above is not taken.  None of this is modelled.
    The model is the library on the positions of a document, from 0 up to
    [C.Far], the latter not included, and every theorem about what an
    update of a range set returns assumes that the ranges at hand and the
    ranges added lie there ([setInDocument], [effectInDocument]). *)
Definition Layer := list Range.
Definition RangeSet := list Layer.
Definition DecorationSet := RangeSet.

Definition none : DecorationSet := [].

(** The ranges of a set, layer by layer. *)
Definition ranges (set : RangeSet) : list Range := concat set.

(** [C.Far] *)
Definition Far : Z := 1000000000.

(** A position of a document. *)
Definition inDocument (p : Z) : Prop := 0 ≤ p < Far.

Definition rangeInDocument (r : Range) : Prop :=
  inDocument (from r) ∧ inDocument (to r).

Definition setInDocument (set : RangeSet) : Prop :=
  Forall rangeInDocument (ranges set).

(** [RangeSetBuilder.addInner] against the ranges [built] so far in the
    layer: [inr true] when the range goes in, [inr false] when it overlaps
    the last range and belongs to a later layer, an exception when it is
    out of order.  For ranges that start at 0 or above: the library takes a
    negative [chunkStart] for "not started" and sets it anew, which stores
    a range that starts below 0 shifted once another range follows. *)
Definition addInner (r : Range) (built : Layer) : Exception + bool :=
  match last built with
  | None => inr true
  | Some l =>
      if bool_decide (from r < to l) then
        if bool_decide (from r < from l)
        then inl (Error "Ranges must be added sorted by `from` position and `startSide`")
        else inr false
      else inr true
  end.

(** [if (!builder.addInner(...)) spill.push(range)] on the pair of the
    layer under construction and the spilled ranges. *)
Definition addOrSpill (r : Range) (acc : Layer * list Range)
    : Exception + (Layer * list Range) :=
  match addInner r acc.1 with
  | inl e => inl e
  | inr true => inr (acc.1 ++ [r], acc.2)
  | inr false => inr (acc.1, acc.2 ++ [r])
  end.

(** [RangeSetBuilder.add]: into the first layer that takes the range. *)
Fixpoint builder_add (r : Range) (layers : RangeSet) : Exception + RangeSet :=
  match layers with
  | [] => inr [[r]]
  | layer :: next =>
      match addInner r layer with
      | inl e => inl e
      | inr true => inr ((layer ++ [r]) :: next)
      | inr false =>
          match builder_add r next with
          | inl e => inl e
          | inr next' => inr (layer :: next')
          end
      end
  end.

(** [RangeSet.of(ranges)], without sorting. *)
Fixpoint RangeSet_of_from (layers : RangeSet) (rs : list Range)
    : Exception + RangeSet :=
  match rs with
  | [] => inr layers
  | r :: rest =>
      match builder_add r layers with
      | inl e => inl e
      | inr layers' => RangeSet_of_from layers' rest
      end
  end.

Definition RangeSet_of (rs : list Range) : Exception + RangeSet :=
  RangeSet_of_from [] rs.

Section Update.

Context {S : Type}.

(** The update spec: the ranges to [add] (sorted by [from]) and, when
    there is one, the [filter] with [filterFrom] and [filterTo].  (The
    extension never gives a filter without its bounds, so the defaults
    of the bounds are left out.) *)
Variable filter : option ((Z → Z → Decoration → M S bool) * Z * Z).

(** [!filter || filterFrom > cur.to || filterTo < cur.from
     || filter(cur.from, cur.to, cur.value)] *)
Definition keeps (cur : Range) : M S bool :=
  match filter with
  | None => ret true
  | Some (f, filterFrom, filterTo) =>
      if bool_decide (to cur < filterFrom) || bool_decide (filterTo < from cur)
      then ret true
      else f (from cur) (to cur) (value cur)
  end.

(** The loop of [RangeSet.update] over one layer: the cursor [cur] over
    the ranges of the layer and the ranges [add] are merged, an added
    range going first when it does not start after the range under the
    cursor.  For added ranges that start below [C.Far]: the cursor of the
    library, once at its end, stands at [C.Far], so that a range added
    there or above is not taken and the loop fails on the cursor's [null]
    value. *)
Fixpoint update_layer (add : list Range)
    : Layer → Layer * list Range → M S (Layer * list Range) :=
  fix cursor (cur : Layer) (acc : Layer * list Range) {struct cur} :=
    match add, cur with
    | [], [] => ret acc
    | a :: add', [] =>
        (acc' <- liftE (addOrSpill a acc) ;;
         update_layer add' [] acc')%cm
    | [], c :: cur' =>
        (keep <- keeps c ;;
         acc' <- liftE (if keep : bool then addOrSpill c acc else inr acc) ;;
         cursor cur' acc')%cm
    | a :: add', c :: cur' =>
        if bool_decide (from a ≤ from c) then
          (acc' <- liftE (addOrSpill a acc) ;;
           update_layer add' cur acc')%cm
        else
          (keep <- keeps c ;;
           acc' <- liftE (if keep : bool then addOrSpill c acc else inr acc) ;;
           cursor cur' acc')%cm
    end.

(** [RangeSet.update]: the first layer is rebuilt, what does not fit
    is added to the next layer, which is updated with the same filter;
    a layer left without ranges disappears.  (On an empty next layer
    with nothing spilled the library does not recurse; the recursive
    call returns the empty set there as well.)  For layers whose ranges
    end at 0 or above: the library starts its cursor with [goto(0)], which
    passes over the ranges that end before 0. *)
Fixpoint RangeSet_update (add : list Range) (set : RangeSet) : M S RangeSet :=
  match set with
  | [] =>
      match add with
      | [] => ret []
      | _ => liftE (RangeSet_of add)
      end
  | layer :: next =>
      match add, filter with
      | [], None => ret set
      | _, _ =>
          (acc <- update_layer add layer ([], []) ;;
           next' <- RangeSet_update acc.2 next ;;
           ret (match acc.1 with [] => next' | _ => acc.1 :: next' end))%cm
      end
  end.

End Update.

(** ** Transactions *)

(** [AuthorshipUpdate], the value of an [authorshipsUpdateEffect]; its
    fields [from] and [to] are [upd_from] and [upd_to] here, apart from the
    fields of [Range]. *)
Record AuthorshipUpdate := {
  upd_from : Z;
  upd_to : Z;
  userId : string;
  localUpdate : bool
}.

(** The range of the update lies in the document. *)
Definition effectInDocument (effect : AuthorshipUpdate) : Prop :=
  inDocument (upd_from effect) ∧ inDocument (upd_to effect).

(** A state effect is tagged by its type: [effect.is(type)] tells the
    authorship updates from the effects of other extensions. *)
Inductive StateEffect :=
| AuthorshipsUpdateEffect (value : AuthorshipUpdate)
| OtherEffect.

Definition is_authorshipsUpdateEffect (effect : StateEffect) : option AuthorshipUpdate :=
  match effect with
  | AuthorshipsUpdateEffect v => Some v
  | OtherEffect => None
  end.

(** A transaction as far as the state field reads it: its changes and
    its effects.  The type of change sets is a parameter. *)
Record Transaction (ChangeSet : Type) := {
  changes : ChangeSet;
  effects : list StateEffect
}.
Arguments changes {ChangeSet}.
Arguments effects {ChangeSet}.

End CodeMirror.

(* ===================================================================== *)
(** * The authorship state field *)
(* ===================================================================== *)

Module Authorship.
Import CodeMirror.

(** The variables the code of the extension assigns: the module-wide
    [colorSet] (a JavaScript [Set], kept in insertion order) and the two
    variables [effectHandled] and [addedDecorations] that the callback of
    [effects.forEach] declares and its filter closure captures. *)
Record State := {
  colorSet : list string;
  effectHandled : bool;
  addedDecorations : list Range
}.

Definition set_colorSet (f : list string → list string) (s : State) : State :=
  {| colorSet := f (colorSet s);
     effectHandled := effectHandled s;
     addedDecorations := addedDecorations s |}.

Definition set_effectHandled (b : bool) (s : State) : State :=
  {| colorSet := colorSet s;
     effectHandled := b;
     addedDecorations := addedDecorations s |}.

Definition set_addedDecorations (f : list Range → list Range) (s : State) : State :=
  {| colorSet := colorSet s;
     effectHandled := effectHandled s;
     addedDecorations := f (addedDecorations s) |}.

(** [colorSet.add(userId)] *)
Definition Set_add (x : string) (set : list string) : list string :=
  if bool_decide (x ∈ set) then set else set ++ [x].

(** [[...colorSet].indexOf(userId)] *)
Fixpoint indexOf (x : string) (l : list string) : Z :=
  match l with
  | [] => -1
  | y :: rest =>
      if bool_decide (y = x) then 0
      else match indexOf x rest with
           | -1 => -1
           | i => i + 1
           end
  end.

(** The attribute in which a mark carries its author. *)
Definition data_user_id : string := "data-user-id".

Section Field.

(** [styles['authorship-highlight']] comes from a style sheet and
    [createRealtimeColorCssClass] from [../realtime-colors]; neither is
    part of the sources at hand, both are parameters.  So are the type of
    change sets and [RangeSet.map], by which the library moves the
    decorations along with the changes of a transaction. *)
Variable authorship_highlight : string.
Variable createRealtimeColorCssClass : Z → string.
Context {ChangeSet : Type}.
Variable RangeSet_map : DecorationSet → ChangeSet → DecorationSet.

Local Open Scope cm_scope.

Definition createMark (from to : Z) (userId : string) : M State Range :=
  modify (set_colorSet (Set_add userId)) ;;;
  cs <- gets colorSet ;;
  let styleIndex := Z.rem (indexOf userId cs) 7 in
  let color := createRealtimeColorCssClass styleIndex in
  liftE (mark_range
           {| class := authorship_highlight +:+ " " +:+ color;
              attributes := Some {[ data_user_id := userId ]} |}
           from to).

(** [addedDecorations.push(createMark(from, to, userId))] *)
Definition pushMark (from to : Z) (userId : string) : M State unit :=
  mark <- createMark from to userId ;;
  modify (set_addedDecorations (λ added, added ++ [mark])).

(** [(value.spec as MarkDecoration).attributes?.['data-user-id'] ?? ''] *)
Definition decorationUserIdOf (value : Decoration) : string :=
  default "" (attributes value ≫= λ attrs, attrs !! data_user_id).

(** The filter closure of the first [authorshipDecorations.update]. *)
Definition filterDecoration (effect : AuthorshipUpdate)
    (decorationFrom decorationTo : Z) (value : Decoration) : M State bool :=
  let effectUserId := userId effect in
  let effectFrom := upd_from effect in
  let effectTo := upd_to effect in
  handled <- gets effectHandled ;;
  if handled : bool then ret true
  else
    let decorationUserId := decorationUserIdOf value in
    (* [decorationUserId !== undefined] always holds: it is a string *)
    let sameUserId := bool_decide (decorationUserId = effectUserId) && true in
    if sameUserId then
      if bool_decide (decorationFrom = effectTo)
         || bool_decide (decorationTo = effectFrom)
      then
        pushMark (Z.min decorationFrom effectFrom) (Z.max decorationTo effectTo)
                 decorationUserId ;;;
        modify (set_effectHandled true) ;;;
        ret false
      else
        pushMark decorationFrom decorationTo decorationUserId ;;;
        modify (set_effectHandled true) ;;;
        ret false
    else
      (if bool_decide (decorationFrom < effectFrom)
       then pushMark decorationFrom effectFrom decorationUserId
       else ret tt) ;;;
      pushMark effectFrom effectTo effectUserId ;;;
      (if bool_decide (effectTo < decorationTo)
       then pushMark effectTo decorationTo decorationUserId
       else ret tt) ;;;
      modify (set_effectHandled true) ;;;
      ret false.

(** The callback of [effects.forEach]. *)
Definition applyEffect (authorshipDecorations : DecorationSet)
    (effect : AuthorshipUpdate) : M State DecorationSet :=
  modify (set_addedDecorations (λ _, [])) ;;;
  modify (set_effectHandled false) ;;;
  authorshipDecorations <-
    RangeSet_update
      (Some (filterDecoration effect, upd_from effect, upd_to effect))
      [] authorshipDecorations ;;
  added <- gets addedDecorations ;;
  (if bool_decide (length added = 0%nat)
   then pushMark (upd_from effect) (upd_to effect) (userId effect)
   else ret tt) ;;;
  added <- gets addedDecorations ;;
  RangeSet_update None added authorshipDecorations.

(** [effects.forEach(...)], the decoration set being reassigned by each
    call. *)
Fixpoint forEach (effects : list AuthorshipUpdate)
    (authorshipDecorations : DecorationSet) : M State DecorationSet :=
  match effects with
  | [] => ret authorshipDecorations
  | effect :: rest =>
      authorshipDecorations <- applyEffect authorshipDecorations effect ;;
      forEach rest authorshipDecorations
  end.


(** [authorshipsStateField.update] *)
Definition update (authorshipDecorations : DecorationSet)
    (transaction : Transaction ChangeSet) : M State DecorationSet :=
  let authorshipDecorations :=
    RangeSet_map authorshipDecorations (changes transaction) in
  let effects := omap is_authorshipsUpdateEffect (effects transaction) in
  if bool_decide (length effects = 0%nat)
  then ret authorshipDecorations
  else forEach effects authorshipDecorations.

End Field.

End Authorship.

(* ===================================================================== *)
(** * Vocabulary for the properties of the authorship field *)
(* ===================================================================== *)

Module AuthorshipSpec.
Import CodeMirror Authorship.

(** ** Well-formed range sets

    What the library maintains of a set of marks: no mark is empty, no
    layer is empty, and within a layer every range ends before the ranges
    after it start. *)
Fixpoint ordered (layer : Layer) : Prop :=
  match layer with
  | [] => True
  | r :: rest => Forall (λ r', to r ≤ from r') rest ∧ ordered rest
  end.

Definition wf_layer (layer : Layer) : Prop :=
  layer ≠ [] ∧ ordered layer ∧ Forall (λ r, from r < to r) layer.

Definition wf_set (set : RangeSet) : Prop := Forall wf_layer set.

(** Ordered by [from], as [add] has to be. *)
Fixpoint fromSorted (l : list Range) : Prop :=
  match l with
  | [] => True
  | r :: rest => Forall (λ r', from r ≤ from r') rest ∧ fromSorted rest
  end.

(** What the loop keeps true while it merges [add] and [cur] without a
    filter: every range placed so far starts no later than the ranges still
    to come, and the spilled ranges are ordered by [from]. *)
Definition merging (acc : Layer * list Range) (add cur : list Range) : Prop :=
  Forall (λ x, Forall (λ y, from x ≤ from y) add
               ∧ Forall (λ y, from x ≤ from y) cur) (acc.1 ++ acc.2)
  ∧ fromSorted acc.2.

(** ** The ranges an effect concerns *)

(** The range is within the bounds of the filter of an effect: it is not
    wholly before [filterFrom] nor wholly after [filterTo]. *)
Definition touches (effect : AuthorshipUpdate) (r : Range) : bool :=
  negb (bool_decide (to r < upd_from effect)
        || bool_decide (upd_to effect < from r)).

(** The range starts where the effect ends or ends where it starts. *)
Definition adjacent (effect : AuthorshipUpdate) (r : Range) : Prop :=
  from r = upd_to effect ∨ to r = upd_from effect.

(** The range and the effect have a position in common. *)
Definition overlaps (effect : AuthorshipUpdate) (r : Range) : Prop :=
  Z.max (from r) (upd_from effect) < Z.min (to r) (upd_to effect).

(** The user a decoration is attributed to. *)
Definition userOf (r : Range) : string := decorationUserIdOf (value r).

(** What a range shows of itself to the properties: where it is and whose
    it is. *)
Definition span (r : Range) : Z * Z * string := (from r, to r, userOf r).

(** The authorship updates a transaction carries. *)
Definition authorshipUpdates {ChangeSet} (transaction : Transaction ChangeSet)
    : list AuthorshipUpdate :=
  omap is_authorshipsUpdateEffect (effects transaction).

(** Two effects that differ at most in [localUpdate]. *)
Definition sameButLocalUpdate (e1 e2 : StateEffect) : Prop :=
  match e1, e2 with
  | AuthorshipsUpdateEffect v1, AuthorshipsUpdateEffect v2 =>
      upd_from v1 = upd_from v2 ∧ upd_to v1 = upd_to v2 ∧ userId v1 = userId v2
  | OtherEffect, OtherEffect => True
  | _, _ => False
  end.

(** ** The marks [createMark] makes *)

Section Marks.

Variable authorship_highlight : string.
Variable createRealtimeColorCssClass : Z → string.

(** The mark [createMark] returns when called with the colour set
    [cs]. *)
Definition markOf (cs : list string) (from to : Z) (userId : string) : Range :=
  {| from := from; to := to;
     value :=
       {| class :=
            authorship_highlight +:+ " "
            +:+ createRealtimeColorCssClass
                  (Z.rem (indexOf userId (Set_add userId cs)) 7);
          attributes := Some {[ data_user_id := userId ]} |} |}.

(** The state after [addedDecorations.push(createMark(from, to, userId))]. *)
Definition pushed (s : State) (from to : Z) (userId : string) : State :=
  {| colorSet := Set_add userId (colorSet s);
     effectHandled := effectHandled s;
     addedDecorations :=
       addedDecorations s ++ [markOf (colorSet s) from to userId] |}.

(** The marks made, one after the other, for a list of spans, and the
    colour set they leave. *)
Fixpoint marksOf (cs : list string) (spans : list (Z * Z * string)) : list Range :=
  match spans with
  | [] => []
  | (from, to, userId) :: rest =>
      markOf cs from to userId :: marksOf (Set_add userId cs) rest
  end.

Fixpoint colorsAfter (cs : list string) (spans : list (Z * Z * string))
    : list string :=
  match spans with
  | [] => cs
  | (_, _, userId) :: rest => colorsAfter (Set_add userId cs) rest
  end.

(** The state in which the filter leaves the variables when it has handled
    a decoration and made the marks of [spans]. *)
Definition handled_state (s : State) (spans : list (Z * Z * string)) : State :=
  {| colorSet := colorsAfter (colorSet s) spans;
     effectHandled := true;
     addedDecorations := addedDecorations s ++ marksOf (colorSet s) spans |}.

(** The variables as the callback of [forEach] sets them before the filter
    pass. *)
Definition fresh (s : State) : State :=
  {| colorSet := colorSet s; effectHandled := false; addedDecorations := [] |}.

(** What the callback does after the filter pass. *)
Definition addPass (effect : AuthorshipUpdate) (set : DecorationSet)
    : M State DecorationSet :=
  bind (gets addedDecorations) (λ added,
    bind (if bool_decide (length added = 0%nat)
          then pushMark authorship_highlight createRealtimeColorCssClass
                 (upd_from effect) (upd_to effect) (userId effect)
          else ret tt)
         (λ _, bind (gets addedDecorations)
                    (λ added, RangeSet_update None added set))).

End Marks.

(** The spans of the marks that take the place of the decoration [d] when
    the filter handles it for [effect]: the three branches of the filter. *)
Definition replacement (effect : AuthorshipUpdate) (d : Range)
    : list (Z * Z * string) :=
  if bool_decide (userOf d = userId effect) then
    if bool_decide (from d = upd_to effect) || bool_decide (to d = upd_from effect)
    then [(Z.min (from d) (upd_from effect), Z.max (to d) (upd_to effect), userOf d)]
    else [(from d, to d, userOf d)]
  else
    (if bool_decide (from d < upd_from effect)
     then [(from d, upd_from effect, userOf d)] else [])
    ++ [(upd_from effect, upd_to effect, userId effect)]
    ++ (if bool_decide (upd_to effect < to d)
        then [(upd_to effect, to d, userOf d)] else []).

Definition nonempty_span (sp : Z * Z * string) : Prop := sp.1.1 < sp.1.2.

(** A layer, or what is left of it: a layer without ranges is no layer. *)
Definition layer_or_next (layer : Layer) (next : RangeSet) : RangeSet :=
  match layer with
  | [] => next
  | _ => layer :: next
  end.

(** The set [res] is the set [set] after one effect: new marks, and the
    decorations of [set], all of them or all but the first one within the
    bounds of the effect, whose place the marks of its [replacement] take. *)
Definition handles_at_most_one (effect : AuthorshipUpdate)
    (set res : DecorationSet) : Prop :=
  ∃ marks kept,
    ranges res ≡ₚ marks ++ kept
    ∧ (kept = ranges set
       ∨ ∃ l1 d l2,
           ranges set = l1 ++ d :: l2
           ∧ Forall (λ r, touches effect r = false) l1
           ∧ touches effect d = true
           ∧ kept = l1 ++ l2
           ∧ span <$> marks = replacement effect d).

(** The effects of a transaction take the set [set] to [res] one after the
    other, each handling at most one decoration of the set it finds. *)
Inductive effect_by_effect
    : list AuthorshipUpdate → DecorationSet → DecorationSet → Prop :=
| no_effect set : effect_by_effect [] set set
| one_more_effect effect effects set set' res :
    handles_at_most_one effect set set' →
    effect_by_effect effects set' res →
    effect_by_effect (effect :: effects) set res.

(** The effect without its [localUpdate] flag. *)
Definition without_localUpdate (effect : AuthorshipUpdate) : AuthorshipUpdate :=
  {| upd_from := upd_from effect;
     upd_to := upd_to effect;
     userId := userId effect;
     localUpdate := false |}.


(** ** A concrete setting for examples *)

Definition example_highlight : string := "authorship-highlight".

Definition example_color (styleIndex : Z) : string :=
  match styleIndex with
  | 0 => "color-0" | 1 => "color-1" | 2 => "color-2" | 3 => "color-3"
  | 4 => "color-4" | 5 => "color-5" | 6 => "color-6" | _ => "color"
  end.

(** The transactions of the examples change no text: the decorations
    stay where they are. *)
Definition example_map (set : DecorationSet) (changes : unit) : DecorationSet :=
  set.

Definition example_update :=
  update example_highlight example_color example_map.

Definition example_mark (cs : list string) (from to : Z) (userId : string) :=
  markOf example_highlight example_color cs from to userId.

Definition example_state (cs : list string) : State :=
  {| colorSet := cs; effectHandled := false; addedDecorations := [] |}.

Definition example_transaction (updates : list AuthorshipUpdate)
    : Transaction unit :=
  {| changes := tt; effects := AuthorshipsUpdateEffect <$> updates |}.

Definition example_effect (from to : Z) (user : string) : AuthorshipUpdate :=
  {| upd_from := from; upd_to := to; userId := user; localUpdate := true |}.

End AuthorshipSpec.

(* ===================================================================== *)
(** * The helpers of the permission test-suite that order the grants *)
(* ===================================================================== *)

Module PermissionsSuite.
Import Permissions.

Section Permutator.

Context {T : Type}.

(** The inner function [permute(arr, memo)] of [permutator], the array
    [results] of the enclosing function being passed in and returned.  One
    turn of the loop takes the element at [i] out of [arr] ([splice(i, 1)]),
    pushes [memo.concat(cur)] when nothing is left, calls itself on a copy
    of what is left, and puts the element back ([splice(i, 0, cur[0])]), so
    every turn sees the same [arr].  Each call works on an array one
    shorter: [depth] bounds the nesting of the calls, and [permutator]
    starts it at the length of its input, below which the array is empty
    and the loop has no turn. *)
Fixpoint permute (depth : nat) (arr memo : list T) (results : list (list T))
    : list (list T) :=
  match depth with
  | O => results
  | S depth' =>
      foldl
        (λ results i,
           match arr !! i with
           | None => results
           | Some cur =>
               let arr' := delete i arr in
               let results :=
                 if bool_decide (length arr' = 0%nat)
                 then results ++ [memo ++ [cur]]
                 else results in
               permute depth' arr' (memo ++ [cur]) results
           end)
        results (seq 0 (length arr))
  end.

(** [permutator(inputArr)] *)
Definition permutator (inputArr : list T) : list (list T) :=
  permute (length inputArr) inputArr [] [].

End Permutator.

(** [permuteNoteGroupPermissions]: every combination in every order the
    [permutator] gives, with the answers of the combination. *)
Definition permuteNoteGroupPermissions
    (noteGroupPermissions : list NoteGroupPermissionWithResultForUser)
    : list NoteGroupPermissionWithResultForUser :=
  permission ← noteGroupPermissions;
  permutation ← permutator (permissions permission);
  [ {| permissions := permutation;
       allowsRead := allowsRead permission;
       allowsWrite := allowsWrite permission |} ].

End PermissionsSuite.

(* ===================================================================== *)
(** * The token check of the Gist export dialogue *)
(* ===================================================================== *)

Module GistExport.

(** A JavaScript string is a sequence of UTF-16 code units, and [length]
    counts them. *)
Definition JsString := list Z.

(** The code units of a string of ASCII characters. *)
Definition codeUnits (s : string) : JsString :=
  (λ c, Z.of_N (Ascii.N_of_ascii c)) <$> String.list_ascii_of_string s.

Definition GITHUB_CLASSIC_TOKEN_LENGTH : nat := 40.
Definition GITHUB_CLASSIC_TOKEN_PREFIX : JsString := codeUnits "ghp_".
Definition GITHUB_SCOPED_TOKEN_LENGTH : nat := 93.
Definition GITHUB_SCOPED_TOKEN_PREFIX : JsString := codeUnits "github_pat_".

(** [s.startsWith(searchString)] *)
Fixpoint startsWith (s searchString : JsString) : bool :=
  match searchString, s with
  | [], _ => true
  | _ :: _, [] => false
  | c :: rest, c' :: s' => bool_decide (c' = c) && startsWith s' rest
  end.

(** The body of the [useMemo] that computes [ghTokenFormatValid]. *)
Definition ghTokenFormatValid (ghToken : JsString) : bool :=
  (startsWith ghToken GITHUB_CLASSIC_TOKEN_PREFIX
   && bool_decide (length ghToken = GITHUB_CLASSIC_TOKEN_LENGTH))
  || (startsWith ghToken GITHUB_SCOPED_TOKEN_PREFIX
      && bool_decide (length ghToken = GITHUB_SCOPED_TOKEN_LENGTH)).

(** The three pieces of state of the dialogue, as [useState] starts
    them, and what the dialogue derives from them. *)
Record ModalState := {
  ghToken : JsString;
  gistDescription : JsString;
  gistPublic : bool
}.

Definition initialState : ModalState :=
  {| ghToken := []; gistDescription := []; gistPublic := false |}.

(** [setGhToken], by way of [onGhTokenChange] *)
Definition onGhTokenChange (value : JsString) (s : ModalState) : ModalState :=
  {| ghToken := value;
     gistDescription := gistDescription s;
     gistPublic := gistPublic s |}.

(** [setGistPublic((prev) => !prev)] *)
Definition onGistPublicChange (s : ModalState) : ModalState :=
  {| ghToken := ghToken s;
     gistDescription := gistDescription s;
     gistPublic := negb (gistPublic s) |}.

(** [disabled={!ghTokenFormatValid}] of the create button, and
    [isInvalid={!ghTokenFormatValid}] of the token field. *)
Definition createDisabled (s : ModalState) : bool :=
  negb (ghTokenFormatValid (ghToken s)).

End GistExport.

(* ===================================================================== *)
(** * Further vocabulary for the authorship field *)
(* ===================================================================== *)

Module AuthorshipCoverage.
Import CodeMirror Authorship AuthorshipSpec.

(** The spans follow one another from [lo] to [hi]: the first starts at
    [lo], each starts where the one before it ends, the last ends at [hi],
    and none is empty. *)
Fixpoint contiguous (spans : list (Z * Z * string)) (lo hi : Z) : Prop :=
  match spans with
  | [] => lo = hi
  | (from, to, _) :: rest => from = lo ∧ from < to ∧ contiguous rest to hi
  end.

(** The colour set [cs'] continues [cs]: what was in [cs] is where it was,
    and no user is in it twice when none was. *)
Definition continues (cs cs' : list string) : Prop :=
  cs `prefix_of` cs' ∧ (NoDup cs → NoDup cs').

(** The style index [createMark] computes for a user against a colour
    set. *)
Definition styleIndexOf (userId : string) (cs : list string) : Z :=
  Z.rem (indexOf userId cs) 7.

Section Run.

Variable authorship_highlight : string.
Variable createRealtimeColorCssClass : Z → string.
Context {ChangeSet : Type}.
Variable RangeSet_map : DecorationSet → ChangeSet → DecorationSet.

(** The value of the state field along the transactions of an editor:
    the editor hands each transaction to [update] together with the value
    the transaction before it left. *)
Fixpoint updates (transactions : list (Transaction ChangeSet))
    (authorshipDecorations : DecorationSet) : M State DecorationSet :=
  match transactions with
  | [] => ret authorshipDecorations
  | transaction :: rest =>
      bind (update authorship_highlight createRealtimeColorCssClass
              RangeSet_map authorshipDecorations transaction)
           (updates rest)
  end.

End Run.

End AuthorshipCoverage.

(* ===================================================================== *)
(** * Theorems: the history slice *)
(* ===================================================================== *)

Module HistoryTheory.
Import History.

Section Slice.

Context {HistoryEntry : Type}.
Variable identifier : HistoryEntry → string.

Lemma filter_is_without_note (noteId : string) (state : list HistoryEntry) :
  filter (λ entry, identifier entry ≠ noteId) state
  = without_note identifier noteId state.
Proof.
  induction state as [|entry rest IH]; [reflexivity|].
  cbn [without_note]. destruct (decide (identifier entry = noteId)) as [Heq|Hne].
  - rewrite filter_cons_False by (intros H; apply H, Heq). exact IH.
  - rewrite filter_cons_True by exact Hne. by rewrite IH.
Qed.

Lemma without_note_sublist (noteId : string) (state : list HistoryEntry) :
  without_note identifier noteId state `sublist_of` state.
Proof.
  induction state as [|entry rest IH]; cbn [without_note].
  - constructor.
  - destruct (decide (identifier entry = noteId)).
    + by apply sublist_cons.
    + by apply sublist_skip.
Qed.

Lemma without_note_Forall (noteId : string) (state : list HistoryEntry) :
  Forall (λ entry, identifier entry ≠ noteId)
         (without_note identifier noteId state).
Proof.
  induction state as [|entry rest IH]; cbn [without_note].
  - constructor.
  - destruct (decide (identifier entry = noteId)); [exact IH|].
    by constructor.
Qed.

(** Every sublist of the state that is free of [noteId] is a sublist of
    what is kept: nothing else is dropped and the order is the one of
    the state. *)
Lemma without_note_greatest (noteId : string) (state l : list HistoryEntry) :
  l `sublist_of` state →
  Forall (λ entry, identifier entry ≠ noteId) l →
  l `sublist_of` without_note identifier noteId state.
Proof.
  intros Hsub. induction Hsub as [|x l1 l2 Hsub IH|x l1 l2 Hsub IH];
    intros Hall; cbn [without_note].
  - constructor.
  - inversion Hall as [|? ? Hx Hrest]; subst.
    destruct (decide (identifier x = noteId)); [contradiction|].
    apply sublist_skip. by apply IH.
  - destruct (decide (identifier x = noteId)).
    + by apply IH.
    + apply sublist_cons. by apply IH.
Qed.

(** C8: [updateEntry] returns the state without the entries whose
    identifier is the [noteId] of the payload, the other entries in
    their order, followed by [newEntry]; [removeEntry] returns the same
    list without the appended entry.  The list of kept entries is the
    one the recursion [without_note] writes out: a sublist of the state
    free of [noteId], and the greatest such sublist. *)
Theorem updateEntry_removeEntry_spec
    (state : list HistoryEntry)
    (payload : UpdateEntryPayload) (removal : RemoveEntryPayload) :
  let kept := without_note identifier (upd_noteId payload) state in
  updateEntry identifier state payload = kept ++ [newEntry payload]
  ∧ removeEntry identifier state removal
    = without_note identifier (rem_noteId removal) state
  ∧ kept `sublist_of` state
  ∧ Forall (λ entry, identifier entry ≠ upd_noteId payload) kept
  ∧ (∀ l, l `sublist_of` state
          → Forall (λ entry, identifier entry ≠ upd_noteId payload) l
          → l `sublist_of` kept)
  ∧ last (updateEntry identifier state payload) = Some (newEntry payload).
Proof.
  cbn zeta. unfold updateEntry, removeEntry.
  rewrite !filter_is_without_note. split_and!.
  - reflexivity.
  - reflexivity.
  - apply without_note_sublist.
  - apply without_note_Forall.
  - intros l. apply without_note_greatest.
  - apply last_snoc.
Qed.

End Slice.

(** The reducers on a history of three entries, two of them with the
    identifier of the payload. *)
Example updateEntry_example :
  updateEntry fst [("a", 1%nat); ("b", 2%nat); ("a", 3%nat)]
              {| upd_noteId := "a"; newEntry := ("a", 4%nat) |}
  = [("b", 2%nat); ("a", 4%nat)]
  ∧ removeEntry fst [("a", 1%nat); ("b", 2%nat); ("a", 3%nat)]
                {| rem_noteId := "a" |}
    = [("b", 2%nat)].
Proof. split; reflexivity. Qed.

End HistoryTheory.

(* ===================================================================== *)
(** * Theorems: note permissions *)
(* ===================================================================== *)

Module PermissionsTheory.
Import Permissions.

(** ** The searches as existence statements *)

Lemma searchUserPermissions_true u wantEdit perms :
  searchUserPermissions u wantEdit perms = true
  ↔ ∃ p, p ∈ perms ∧ userGrant u wantEdit p.
Proof.
  unfold userGrant. induction perms as [|p rest IH]; cbn [searchUserPermissions].
  - split; [discriminate|]. intros (p & Hp & _). by apply elem_of_nil in Hp.
  - destruct (bool_decide (id (up_user p) = id u)
              && (up_canEdit p || negb wantEdit)) eqn:Hhead.
    + split; [|done]. intros _. exists p. split; [left|].
      apply andb_true_iff in Hhead as [Hid Hstrong].
      apply bool_decide_eq_true in Hid. split; [done|].
      apply orb_true_iff in Hstrong as [?|Hw]; [by left|right].
      by destruct wantEdit.
    + rewrite IH. split.
      * intros (q & Hq & Hgrant). exists q. split; [by right|done].
      * intros (q & Hq & Hid & Hstrong).
        apply elem_of_cons in Hq as [->|Hq]; [|by exists q].
        exfalso. apply andb_false_iff in Hhead as [Hhead|Hhead].
        -- by apply bool_decide_eq_false in Hhead.
        -- apply orb_false_iff in Hhead as [Hc Hw].
           destruct Hstrong as [Hs|Hs]; [congruence|].
           subst wantEdit. discriminate.
  Qed.

Lemma searchGroupPermissions_true config user wantEdit perms :
  searchGroupPermissions config user wantEdit perms = true
  ↔ ∃ gp, gp ∈ perms
          ∧ (gp_canEdit gp || negb wantEdit) = true
          ∧ groupCovers config user wantEdit (gp_group gp) = true.
Proof.
  induction perms as [|gp rest IH]; cbn [searchGroupPermissions].
  - split; [discriminate|]. intros (gp & Hgp & _). by apply elem_of_nil in Hgp.
  - destruct ((gp_canEdit gp || negb wantEdit)
              && groupCovers config user wantEdit (gp_group gp)) eqn:Hhead.
    + split; [|done]. intros _. exists gp.
      apply andb_true_iff in Hhead as [? ?]. split; [left|done].
    + rewrite IH. split.
      * intros (q & Hq & Hrest). exists q. split; [by right|done].
      * intros (q & Hq & Hstrong & Hcov).
        apply elem_of_cons in Hq as [->|Hq]; [|by exists q].
        rewrite Hstrong, Hcov in Hhead. discriminate.
Qed.

Lemma isMember_true u ms :
  isMember u ms = true ↔ ∃ m, m ∈ ms ∧ id m = id u.
Proof.
  induction ms as [|m rest IH]; cbn [isMember].
  - split; [discriminate|]. intros (m & Hm & _). by apply elem_of_nil in Hm.
  - case_bool_decide as Hid.
    + split; [|done]. intros _. exists m. split; [left|done].
    + rewrite IH. split.
      * intros (q & Hq & ?). exists q. split; [by right|done].
      * intros (q & Hq & ?). apply elem_of_cons in Hq as [->|Hq]; [done|].
        by exists q.
Qed.

Lemma groupCovers_belongsTo config u wantEdit g :
  groupCovers config (Some u) wantEdit g = true → belongsTo u g.
Proof.
  unfold groupCovers, belongsTo. destruct (special g).
  - intros H. apply orb_true_iff in H as [H|H];
      apply andb_true_iff in H as [H1 H2].
    + left. by apply bool_decide_eq_true in H2.
    + right. by apply bool_decide_eq_true in H1.
  - apply isMember_true.
Qed.

(** ** C1: the layers *)

(** C1: for an authenticated user, [mayRead] and [mayWrite] are the
    disjunction of the owner layer, the per-user layer and the per-group
    layer.  The owner may read and write.  A per-user grant with
    [canEdit] lets the user read and write.  A per-user grant without
    [canEdit] lets the user read; when the user is not the owner and none
    of the user's grants has [canEdit], the user layer gives no write
    access and [mayWrite] is what the group layer says, [false] when no
    group grant is for a group the user belongs to.  A user who is not the
    owner, has no per-user grant and belongs to no group with a grant can
    neither read nor write. *)
Theorem mayRead_mayWrite_layers (config : NoteConfig) (u : User) (note : Note) :
  let user := Some u in
  (mayRead config user note
     = isOwner user note || hasPermissionUser user note false
       || hasPermissionGroup config user note false)
  ∧ (mayWrite config user note
     = isOwner user note || hasPermissionUser user note true
       || hasPermissionGroup config user note true)
  ∧ (isOwner user note = true →
     mayRead config user note = true ∧ mayWrite config user note = true)
  ∧ (∀ p, p ∈ userPermissions note → id (up_user p) = id u →
          up_canEdit p = true →
          mayRead config user note = true ∧ mayWrite config user note = true)
  ∧ (∀ p, p ∈ userPermissions note → id (up_user p) = id u →
          up_canEdit p = false →
          mayRead config user note = true
          ∧ (isOwner user note = false →
             (∀ q, q ∈ userPermissions note → id (up_user q) = id u →
                   up_canEdit q = false) →
             hasPermissionUser user note true = false
             ∧ mayWrite config user note
               = hasPermissionGroup config user note true
             ∧ ((∀ gp, gp ∈ groupPermissions note → ¬ belongsTo u (gp_group gp))
                → mayWrite config user note = false)))
  ∧ (isOwner user note = false →
     (∀ p, p ∈ userPermissions note → id (up_user p) ≠ id u) →
     (∀ gp, gp ∈ groupPermissions note → ¬ belongsTo u (gp_group gp)) →
     mayRead config user note = false ∧ mayWrite config user note = false).
Proof.
  cbn zeta.
  assert (Hgroup : ∀ wantEdit,
             (∀ gp, gp ∈ groupPermissions note → ¬ belongsTo u (gp_group gp)) →
             hasPermissionGroup config (Some u) note wantEdit = false).
  { intros wantEdit Hno. cbn [hasPermissionGroup].
    apply not_true_is_false. intros Hs.
    apply searchGroupPermissions_true in Hs as (gp & Hgp & _ & Hcov).
    apply (Hno gp Hgp). by eapply groupCovers_belongsTo. }
  assert (Huser : ∀ wantEdit p, p ∈ userPermissions note →
             id (up_user p) = id u →
             up_canEdit p = true ∨ wantEdit = false →
             hasPermissionUser (Some u) note wantEdit = true).
  { intros wantEdit p Hp Hid Hstrong. cbn [hasPermissionUser].
    apply searchUserPermissions_true. by exists p. }
  split_and!.
  - reflexivity.
  - reflexivity.
  - intros Ho. unfold mayRead, mayWrite. by rewrite Ho.
  - intros p Hp Hid Hedit. unfold mayRead, mayWrite.
    rewrite !(Huser _ p Hp Hid) by (by left).
    by rewrite !orb_true_r.
  - intros p Hp Hid Hedit. split.
    + unfold mayRead. rewrite (Huser false p Hp Hid) by (by right).
      by rewrite orb_true_r.
    + intros Ho Hall.
      assert (Hnone : hasPermissionUser (Some u) note true = false).
      { cbn [hasPermissionUser]. apply not_true_is_false. intros Hs.
        apply searchUserPermissions_true in Hs as (q & Hq & Hqid & Hstrong).
        specialize (Hall q Hq Hqid). destruct Hstrong; congruence. }
      split_and!; [done| |].
      * unfold mayWrite. by rewrite Ho, Hnone.
      * intros Hno. unfold mayWrite. by rewrite Ho, Hnone, Hgroup.
  - intros Ho Hnouser Hno.
    assert (Hnone : ∀ wantEdit, hasPermissionUser (Some u) note wantEdit = false).
    { intros wantEdit. cbn [hasPermissionUser]. apply not_true_is_false.
      intros Hs. apply searchUserPermissions_true in Hs as (q & Hq & Hqid & _).
      by apply (Hnouser q Hq). }
    unfold mayRead, mayWrite. by rewrite Ho, !Hnone, !Hgroup.
Qed.

(** The owner layer, the user layer with and without [canEdit], and a
    user without any grant, at notes of the test-suite. *)
Lemma mayRead_mayWrite_layers_witness :
  (mayRead (guestConfig DENY) (Some user1) noteNobodyRead = true
   ∧ mayWrite (guestConfig DENY) (Some user1) noteNobodyRead = true)
  ∧ (mayRead (guestConfig DENY) (Some user1) noteUser2Write = true
     ∧ mayWrite (guestConfig DENY) (Some user1) noteUser2Write = true)
  ∧ (mayRead (guestConfig DENY) (Some user1) noteUser1Read = true
     ∧ mayWrite (guestConfig DENY) (Some user1) noteUser1Read = false)
  ∧ (mayRead (guestConfig DENY) (Some user1) noteUser2Read = false
     ∧ mayWrite (guestConfig DENY) (Some user1) noteUser2Read = false).
Proof.
  pose proof (mayRead_mayWrite_layers (guestConfig DENY) user1 noteNobodyRead)
    as (_ & _ & Howner & _).
  pose proof (mayRead_mayWrite_layers (guestConfig DENY) user1 noteUser2Write)
    as (_ & _ & _ & Hwrite & _).
  pose proof (mayRead_mayWrite_layers (guestConfig DENY) user1 noteUser1Read)
    as (_ & _ & _ & _ & Hread & _).
  pose proof (mayRead_mayWrite_layers (guestConfig DENY) user1 noteUser2Read)
    as (_ & _ & _ & _ & _ & Hnone).
  destruct (Howner eq_refl) as [Ho1 Ho2].
  destruct (Hwrite (createUserPermission user1 true)) as [Hw1 Hw2];
    [left|done|done|].
  destruct (Hread (createUserPermission user1 false)) as [Hr1 Hr2];
    [left|done|done|].
  destruct Hr2 as (_ & _ & Hr2); [done| |].
  { intros q Hq _. apply list_elem_of_singleton in Hq. by subst q. }
  destruct Hnone as [Hn1 Hn2]; [done| | |].
  { intros p Hp. apply list_elem_of_singleton in Hp. by subst p. }
  { intros gp Hgp. by apply elem_of_nil in Hgp. }
  assert (Hr3 := Hr2 (λ gp Hgp, False_ind _ (proj1 (elem_of_nil gp) Hgp))).
  exact (conj (conj Ho1 Ho2) (conj (conj Hw1 Hw2)
           (conj (conj Hr1 Hr3) (conj Hn1 Hn2)))).
Defined.

(** ** C2 and C3: guests *)

(** C2: under the guest-access policy [DENY] a guest may neither read nor
    write any note, whatever its grants. *)
Theorem guest_denied_under_DENY (config : NoteConfig) (note : Note) :
  guestAccess config = DENY →
  mayRead config None note = false ∧ mayWrite config None note = false.
Proof.
  intros Hdeny. unfold mayRead, mayWrite. cbn. by rewrite Hdeny.
Qed.

(** The note of the test-suite that grants [EVERYONE] write access. *)
Lemma guest_denied_under_DENY_witness :
  everyoneGrant {| gp_group := everybody; gp_canEdit := true |}
  ∧ {| gp_group := everybody; gp_canEdit := true |}
      ∈ groupPermissions noteEverybodyWrite
  ∧ mayRead (guestConfig DENY) None noteEverybodyWrite = false
  ∧ mayWrite (guestConfig DENY) None noteEverybodyWrite = false.
Proof.
  split_and!.
  - split; reflexivity.
  - left.
  - apply (guest_denied_under_DENY (guestConfig DENY) noteEverybodyWrite).
    reflexivity.
  - apply (guest_denied_under_DENY (guestConfig DENY) noteEverybodyWrite).
    reflexivity.
Defined.

Lemma groupCovers_guest config wantEdit g :
  groupCovers config None wantEdit g = true
  ↔ special g = true ∧ name g = EVERYONE
    ∧ defaultAccessAllows (default_everyone config) wantEdit = true.
Proof.
  unfold groupCovers. destruct (special g).
  - rewrite orb_true_iff, !andb_true_iff, !bool_decide_eq_true. split.
    + intros [[Hsome _]|[? ?]]; [|done]. by destruct Hsome.
    + intros (_ & ? & ?). by right.
  - split; [discriminate|]. by intros [? _].
Qed.

(** C3: with the default access level of [EVERYONE] at write, a guest may
    write a note exactly when the guest-access policy is [WRITE] or
    [CREATE] and the note has a grant to [EVERYONE] with [canEdit]; under
    the policy [READ] a guest may write no note. *)
Theorem guest_mayWrite_iff (config : NoteConfig) (note : Note) :
  default_everyone config = LevelWRITE →
  (mayWrite config None note = true
   ↔ (guestAccess config = WRITE ∨ guestAccess config = CREATE)
     ∧ ∃ gp, gp ∈ groupPermissions note
             ∧ everyoneGrant gp ∧ gp_canEdit gp = true)
  ∧ (guestAccess config = READ → mayWrite config None note = false).
Proof.
  intros Hlevel. unfold mayWrite, everyoneGrant. cbn. split.
  - split.
    + intros Hw. destruct (guestAccess config); cbn in Hw; try discriminate.
      * split; [by left|].
        apply searchGroupPermissions_true in Hw as (gp & Hgp & Hedit & Hcov).
        apply groupCovers_guest in Hcov as (? & ? & _).
        exists gp. rewrite orb_false_r in Hedit. done.
      * split; [by right|].
        apply searchGroupPermissions_true in Hw as (gp & Hgp & Hedit & Hcov).
        apply groupCovers_guest in Hcov as (? & ? & _).
        exists gp. rewrite orb_false_r in Hedit. done.
    + intros [Hpolicy (gp & Hgp & [Hspecial Hname] & Hedit)].
      assert (Hs : searchGroupPermissions config None true
                     (groupPermissions note) = true).
      { apply searchGroupPermissions_true. exists gp. split_and!; [done| |].
        - by rewrite Hedit.
        - apply groupCovers_guest. by rewrite Hlevel. }
      by destruct Hpolicy as [-> | ->]; cbn.
  - by intros ->.
Qed.

Lemma guest_mayWrite_iff_witness :
  mayWrite (guestConfig WRITE) None noteEverybodyWrite = true
  ∧ mayWrite (guestConfig READ) None noteEverybodyWrite = false.
Proof.
  split.
  - apply (guest_mayWrite_iff (guestConfig WRITE) noteEverybodyWrite);
      [reflexivity|].
    split; [by left|].
    exists {| gp_group := everybody; gp_canEdit := true |}.
    split_and!; [left|split; reflexivity|reflexivity].
  - apply (guest_mayWrite_iff (guestConfig READ) noteEverybodyWrite);
      reflexivity.
Defined.

(** The expectations of the guest tests, policy by policy. *)
Example guest_tests :
  (∀ policy, mayRead (guestConfig policy) None noteEverybodyNone = false
             ∧ mayWrite (guestConfig policy) None noteEverybodyNone = false
             ∧ mayWrite (guestConfig policy) None noteEverybodyRead = false)
  ∧ (∀ policy, policy ≠ DENY →
               mayRead (guestConfig policy) None noteEverybodyRead = true
               ∧ mayRead (guestConfig policy) None noteEverybodyWrite = true)
  ∧ mayWrite (guestConfig CREATE) None noteEverybodyWrite = true
  ∧ mayCreate (guestConfig CREATE) None = true
  ∧ mayCreate (guestConfig WRITE) None = false.
Proof.
  split_and!; try reflexivity.
  - by intros [].
  - by intros [].
Qed.

(** The expectations of [check if groups work with] for [user1], for each
    of the 432 combinations of group permissions, under each default level
    of [EVERYONE] that [createNoteGroupPermissionsCombinations] provides
    for (the test-suite runs the level write). *)
Example group_tests :
  ∀ level policy,
    forallb (groupTestPasses {| guestAccess := policy;
                                default_everyone := level;
                                default_loggedIn := LevelWRITE |})
            (createNoteGroupPermissionsCombinations level)
    = true.
Proof. intros [] []; vm_compute; reflexivity. Qed.

Example group_tests_count :
  length (createNoteGroupPermissionsCombinations LevelWRITE) = 432%nat.
Proof. reflexivity. Qed.

(** ** C5: the order of the group permissions *)

Lemma searchGroupPermissions_Permutation config user wantEdit perms perms' :
  perms ≡ₚ perms' →
  searchGroupPermissions config user wantEdit perms
  = searchGroupPermissions config user wantEdit perms'.
Proof.
  induction 1 as [|gp l l' _ IH|gp gp' l|l l' l'' _ IH1 _ IH2];
    cbn [searchGroupPermissions].
  - reflexivity.
  - by rewrite IH.
  - by destruct ((gp_canEdit gp || negb wantEdit)
                 && groupCovers config user wantEdit (gp_group gp)),
                ((gp_canEdit gp' || negb wantEdit)
                 && groupCovers config user wantEdit (gp_group gp')).
  - by rewrite IH1.
Qed.

(** C5: [mayRead] and [mayWrite] give the same answer on a note and on
    the note with its group permissions in any other order. *)
Theorem mayRead_mayWrite_Permutation (config : NoteConfig)
    (user : option User) (note : Note) (perms' : list NoteGroupPermission) :
  groupPermissions note ≡ₚ perms' →
  mayRead config user (with_groupPermissions note perms')
  = mayRead config user note
  ∧ mayWrite config user (with_groupPermissions note perms')
    = mayWrite config user note.
Proof.
  intros Hperm.
  unfold mayRead, mayWrite, hasPermissionGroup, hasPermissionUser, isOwner.
  cbn [with_groupPermissions groupPermissions userPermissions owner].
  by destruct user;
    rewrite <- !(searchGroupPermissions_Permutation config _ _ _ _ Hperm).
Qed.

Lemma mayRead_mayWrite_Permutation_witness :
  let note :=
    with_groupPermissions (createNote user2)
      [{| gp_group := user2group; gp_canEdit := true |};
       {| gp_group := user1group; gp_canEdit := false |};
       {| gp_group := loggedIn; gp_canEdit := true |}] in
  let perms' :=
    [{| gp_group := loggedIn; gp_canEdit := true |};
     {| gp_group := user2group; gp_canEdit := true |};
     {| gp_group := user1group; gp_canEdit := false |}] in
  mayRead (guestConfig CREATE) (Some user1) (with_groupPermissions note perms')
  = mayRead (guestConfig CREATE) (Some user1) note
  ∧ mayWrite (guestConfig CREATE) (Some user1) (with_groupPermissions note perms')
    = mayWrite (guestConfig CREATE) (Some user1) note.
Proof.
  cbn zeta.
  apply (mayRead_mayWrite_Permutation (guestConfig CREATE) (Some user1)).
  cbn [with_groupPermissions groupPermissions].
  symmetry. apply (Permutation_cons_append [_; _] _).
Defined.

(** ** C4: duplicate grants in an update *)

Lemma size_list_to_set_le (names : list string) :
  (size (list_to_set names : gset string) ≤ length names)%nat.
Proof.
  induction names as [|x l IH]; [done|].
  rewrite list_to_set_cons, size_union_alt, size_singleton. cbn [length].
  assert (size (list_to_set l ∖ {[x]} : gset string)
          ≤ size (list_to_set l : gset string))%nat
    by (apply subseteq_size, subseteq_difference_l; reflexivity).
  lia.
Qed.

Lemma checkArrayForDuplicates_true (names : list string) :
  checkArrayForDuplicates names = true ↔ ¬ NoDup names.
Proof.
  unfold checkArrayForDuplicates.
  rewrite negb_true_iff, bool_decide_eq_false. split.
  - intros Hsize Hnodup. by apply Hsize, size_list_to_set.
  - intros Hdup Hsize. apply Hdup. clear Hdup.
    induction names as [|x l IH]; [constructor|].
    rewrite list_to_set_cons in Hsize. cbn [length] in Hsize.
    pose proof (size_list_to_set_le l) as Hle.
    destruct (decide (x ∈ l)) as [Hin|Hnotin].
    + exfalso.
      assert (({[x]} ∪ list_to_set l : gset string) = list_to_set l) as Heq
        by (by apply subseteq_union_1_L, singleton_subseteq_l, elem_of_list_to_set).
      rewrite Heq in Hsize. lia.
    + constructor; [done|]. apply IH.
      rewrite size_union, size_singleton in Hsize
        by (by apply disjoint_singleton_l; rewrite elem_of_list_to_set).
      lia.
Qed.

Lemma twoGrantsFor_not_NoDup {A} (key : A → string) (l : list A) :
  twoGrantsFor key l → ¬ NoDup (key <$> l).
Proof.
  intros (i & j & a & b & Hij & Ha & Hb & Hkey) Hnodup.
  apply Hij. eapply (proj1 (NoDup_alt _) Hnodup i j (key a)).
  - by rewrite list_lookup_fmap, Ha.
  - by rewrite list_lookup_fmap, Hb, Hkey.
Qed.

(** C4: an update whose [sharedToUsers] has two grants for one user name,
    or whose [sharedToGroups] has two grants for one group name, ends in
    [PermissionsUpdateInconsistentError]. *)
Theorem updateNotePermissions_duplicates
    (findUser : string → option User) (findGroup : string → option Group)
    (note : Note) (newPermissions : NotePermissionsUpdateDto) :
  twoGrantsFor dto_username (sharedToUsers newPermissions)
  ∨ twoGrantsFor dto_groupName (sharedToGroups newPermissions) →
  updateNotePermissions findUser findGroup note newPermissions
  = inl PermissionsUpdateInconsistentError.
Proof.
  intros Hdup. unfold updateNotePermissions.
  assert (checkArrayForDuplicates (dto_username <$> sharedToUsers newPermissions)
          || checkArrayForDuplicates
               (dto_groupName <$> sharedToGroups newPermissions) = true) as ->;
    [|reflexivity].
  apply orb_true_iff. destruct Hdup as [Hdup|Hdup]; [left|right];
    by apply checkArrayForDuplicates_true, twoGrantsFor_not_NoDup.
Qed.

(** The failing updates of the test-suite: the same user grant twice. *)
Lemma updateNotePermissions_duplicates_witness :
  let userPermissionUpdate :=
    {| dto_username := "hardcoded"; dto_user_canEdit := true |} in
  updateNotePermissions (λ _, Some user1) (λ _, Some user1group)
    (createNote user1)
    {| sharedToUsers := [userPermissionUpdate; userPermissionUpdate];
       sharedToGroups := [] |}
  = inl PermissionsUpdateInconsistentError.
Proof.
  cbn zeta. apply updateNotePermissions_duplicates. left.
  exists 0%nat, 1%nat. do 2 eexists.
  split; [discriminate|]. split_and!; reflexivity.
Defined.

(** Without duplicates, and with every grantee found, the update goes
    through and the note carries the permissions requested. *)
Example updateNotePermissions_works :
  updateNotePermissions (λ _, Some user1) (λ _, Some user1group)
    noteEverybodyWrite
    {| sharedToUsers := [{| dto_username := "hardcoded"; dto_user_canEdit := true |}];
       sharedToGroups := [{| dto_groupName := "testGroup";
                             dto_group_canEdit := false |}] |}
  = inr {| owner := Some user1;
           userPermissions := [createUserPermission user1 true];
           groupPermissions := [{| gp_group := user1group; gp_canEdit := false |}] |}.
Proof. reflexivity. Qed.

End PermissionsTheory.

(* ===================================================================== *)
(** * Theorems: the range sets of CodeMirror *)
(* ===================================================================== *)

Module CodeMirrorTheory.
Import CodeMirror Authorship AuthorshipSpec.

(** ** Computations *)

Lemma bind_value {S A B} (m : M S A) (k : A → M S B) s s' a :
  m s = (s', inr a) → bind m k s = k a s'.
Proof. unfold bind. by intros ->. Qed.

Lemma bind_exception {S A B} (m : M S A) (k : A → M S B) s s' e :
  m s = (s', inl e) → bind m k s = (s', inl e).
Proof. unfold bind. by intros ->. Qed.

(** ** Ordered lists of ranges *)

Lemma ordered_app l1 l2 :
  ordered (l1 ++ l2)
  ↔ ordered l1 ∧ ordered l2 ∧ Forall (λ a, Forall (λ b, to a ≤ from b) l2) l1.
Proof.
  induction l1 as [|r l1 IH]; cbn [ordered app].
  - split; [intros ?; split_and!; [done|done|constructor]|by intros (_ & ? & _)].
  - rewrite Forall_app, IH, Forall_cons. tauto.
Qed.

Lemma fromSorted_app l1 l2 :
  fromSorted (l1 ++ l2)
  ↔ fromSorted l1 ∧ fromSorted l2
    ∧ Forall (λ a, Forall (λ b, from a ≤ from b) l2) l1.
Proof.
  induction l1 as [|r l1 IH]; cbn [fromSorted app].
  - split; [intros ?; split_and!; [done|done|constructor]|by intros (_ & ? & _)].
  - rewrite Forall_app, IH, Forall_cons. tauto.
Qed.

Lemma fromSorted_snoc l r :
  fromSorted l → Forall (λ a, from a ≤ from r) l → fromSorted (l ++ [r]).
Proof.
  intros Hl Hr. apply fromSorted_app. split_and!; [done|by cbn|].
  eapply Forall_impl; [exact Hr|]. intros a Ha. by constructor.
Qed.

Lemma ordered_fromSorted l :
  ordered l → Forall (λ r, from r < to r) l → fromSorted l.
Proof.
  induction l as [|r l IH]; [done|]. cbn [ordered fromSorted].
  intros [Hr Hl] Hne. apply Forall_cons in Hne as [Hr' Hne].
  split; [|by apply IH].
  eapply Forall_impl; [exact Hr|]. cbn. intros; lia.
Qed.

Lemma wf_layer_fromSorted layer : wf_layer layer → fromSorted layer.
Proof. intros (_ & ? & ?). by apply ordered_fromSorted. Qed.

(** Taking a range out of an ordered layer leaves it ordered. *)
Lemma ordered_remove l1 d l2 : ordered (l1 ++ d :: l2) → ordered (l1 ++ l2).
Proof.
  rewrite !ordered_app. cbn [ordered]. intros (H1 & [_ H2] & H12).
  split_and!; [done|done|].
  eapply Forall_impl; [exact H12|]. cbn. intros a Ha.
  by apply Forall_cons in Ha as [_ ?].
Qed.

(** ** The builder *)

Lemma addInner_after built r :
  Forall (λ a, to a ≤ from r) built → addInner r built = inr true.
Proof.
  intros Hall. unfold addInner. destruct (last built) as [l|] eqn:Hlast; [|done].
  apply last_Some in Hlast as [built' ->].
  apply Forall_app in Hall as [_ Hl]. apply Forall_cons in Hl as [Hl _].
  rewrite bool_decide_eq_false_2 by lia. done.
Qed.

Lemma addInner_sorted built r :
  Forall (λ a, from a ≤ from r) built → ∃ fits, addInner r built = inr fits.
Proof.
  intros Hall. unfold addInner. destruct (last built) as [l|] eqn:Hlast; [|by eexists].
  apply last_Some in Hlast as [built' ->].
  apply Forall_app in Hall as [_ Hl]. apply Forall_cons in Hl as [Hl _].
  case_bool_decide; [|by eexists].
  rewrite bool_decide_eq_false_2 by lia. by eexists.
Qed.

(** A range the builder takes into the layer starts after all ranges of
    the layer have ended. *)
Lemma addInner_fits built r :
  addInner r built = inr true →
  ordered built → Forall (λ a, from a < to a) built →
  ordered (built ++ [r]).
Proof.
  unfold addInner. intros Hfits Hord Hne. apply ordered_app.
  split_and!; [done|by cbn|].
  destruct (last built) as [l|] eqn:Hlast.
  - apply last_Some in Hlast as [built' ->].
    case_bool_decide as Hlt; [by case_bool_decide|].
    apply ordered_app in Hord as (_ & _ & Hbefore).
    apply Forall_app in Hne as [_ Hl]. apply Forall_cons in Hl as [Hl _].
    apply Forall_app. split.
    + eapply Forall_impl; [exact Hbefore|]. cbn. intros a Ha.
      apply Forall_cons in Ha as [Ha _]. apply Forall_cons_2; [lia|constructor].
    + repeat constructor. lia.
  - apply last_None in Hlast as ->. constructor.
Qed.

Lemma addOrSpill_sorted (r : Range) (acc : Layer * list Range) :
  Forall (λ a, from a ≤ from r) (acc.1 ++ acc.2) →
  ∃ acc', addOrSpill r acc = inr acc'
          ∧ acc'.1 ++ acc'.2 ≡ₚ r :: acc.1 ++ acc.2
          ∧ ((acc' = (acc.1 ++ [r], acc.2)) ∨ (acc' = (acc.1, acc.2 ++ [r])))
          ∧ (ordered acc.1 → Forall (λ a, from a < to a) acc.1 → ordered acc'.1).
Proof.
  intros Hall. apply Forall_app in Hall as [Hall _]. unfold addOrSpill.
  destruct (addInner_sorted _ _ Hall) as [[] Hfits]; eexists; rewrite Hfits;
    (split; [reflexivity|]); cbn [fst snd].
  - split_and!; [|by left|by apply addInner_fits].
    rewrite <- app_assoc. cbn [app]. by rewrite <- Permutation_middle.
  - split_and!; [|by right|done].
    rewrite app_assoc. by rewrite <- Permutation_cons_append.
Qed.

(** [RangeSetBuilder.add] of a range that starts no earlier than any range
    added before: no exception, and the range is in the set. *)
Lemma builder_add_sorted r layers :
  Forall (λ a, from a ≤ from r) (ranges layers) →
  ∃ layers', builder_add r layers = inr layers' ∧ ranges layers' ≡ₚ r :: ranges layers.
Proof.
  unfold ranges. induction layers as [|layer next IH]; cbn [builder_add concat].
  - intros _. eexists. split; [done|]. done.
  - intros Hall. apply Forall_app in Hall as [Hlayer Hnext].
    destruct (addInner_sorted _ _ Hlayer) as [[] Hfits].
    + eexists. rewrite Hfits. split; [reflexivity|]. cbn [concat].
      rewrite <- app_assoc. cbn [app]. by rewrite <- Permutation_middle.
    + destruct (IH Hnext) as (next' & Hnext' & Hperm).
      eexists. rewrite Hfits, Hnext'. split; [reflexivity|].
      cbn [concat]. rewrite Hperm. by rewrite <- Permutation_middle.
Qed.

Lemma RangeSet_of_from_sorted rs : ∀ layers,
  fromSorted rs →
  Forall (λ a, Forall (λ b, from a ≤ from b) rs) (ranges layers) →
  ∃ set, RangeSet_of_from layers rs = inr set
         ∧ ranges set ≡ₚ ranges layers ++ rs.
Proof.
  induction rs as [|r rs IH]; intros layers Hsorted Hbound; cbn [RangeSet_of_from].
  - eexists. split; [done|]. by rewrite app_nil_r.
  - destruct Hsorted as [Hr Hrs].
    destruct (builder_add_sorted r layers) as (layers' & Hadd & Hperm).
    { eapply Forall_impl; [exact Hbound|]. cbn. intros a Ha.
      by apply Forall_cons in Ha as [? _]. }
    destruct (IH layers' Hrs) as (set & Hof & Hset).
    { rewrite Hperm. constructor; [done|].
      eapply Forall_impl; [exact Hbound|]. cbn. intros a Ha.
      by apply Forall_cons in Ha as [_ ?]. }
    exists set. rewrite Hadd. split; [exact Hof|]. rewrite Hset, Hperm.
    by rewrite <- Permutation_middle.
Qed.

Lemma RangeSet_of_sorted rs :
  fromSorted rs → ∃ set, RangeSet_of rs = inr set ∧ ranges set ≡ₚ rs.
Proof.
  intros Hsorted. destruct (RangeSet_of_from_sorted rs [] Hsorted) as (set & ? & ?).
  { constructor. }
  by exists set.
Qed.

Lemma builder_add_wf r layers layers' :
  builder_add r layers = inr layers' →
  wf_set layers → from r < to r → wf_set layers'.
Proof.
  revert layers'. induction layers as [|layer next IH]; intros layers';
    cbn [builder_add].
  - intros [= <-] _ Hr. repeat constructor; done.
  - intros Hadd Hwf Hr. apply Forall_cons in Hwf as [(Hne & Hord & Hall) Hnext].
    destruct (addInner r layer) as [e|[]] eqn:Hfits; [done| |].
    + injection Hadd as <-. constructor; [|done]. split_and!.
      * by destruct layer.
      * by apply addInner_fits.
      * apply Forall_app. split; [done|by repeat constructor].
    + destruct (builder_add r next) as [e|next'] eqn:Hnext'; [done|].
      injection Hadd as <-. constructor; [done|]. by apply IH.
Qed.

Lemma RangeSet_of_from_wf rs : ∀ layers set,
  RangeSet_of_from layers rs = inr set →
  wf_set layers → Forall (λ r, from r < to r) rs → wf_set set.
Proof.
  induction rs as [|r rs IH]; intros layers set; cbn [RangeSet_of_from].
  - by intros [= <-].
  - intros Hof Hwf Hne. apply Forall_cons in Hne as [Hr Hne].
    destruct (builder_add r layers) as [e|layers'] eqn:Hadd; [done|].
    apply (IH layers' set Hof); [|done]. by eapply builder_add_wf.
Qed.

(** ** The loop over a layer, unfolded *)

Section Loop.

Context {S : Type}.
Variable filter : option ((Z → Z → Decoration → M S bool) * Z * Z).

Lemma update_layer_done acc :
  update_layer filter [] [] acc = ret acc.
Proof. reflexivity. Qed.

Lemma update_layer_add_only a add acc :
  update_layer filter (a :: add) [] acc
  = bind (liftE (addOrSpill a acc)) (λ acc', update_layer filter add [] acc').
Proof. reflexivity. Qed.

Lemma update_layer_cursor_only c cur acc :
  update_layer filter [] (c :: cur) acc
  = bind (keeps filter c) (λ keep,
      bind (liftE (if keep : bool then addOrSpill c acc else inr acc))
           (λ acc', update_layer filter [] cur acc')).
Proof. reflexivity. Qed.

Lemma update_layer_both a add c cur acc :
  update_layer filter (a :: add) (c :: cur) acc
  = if bool_decide (from a ≤ from c)
    then bind (liftE (addOrSpill a acc))
              (λ acc', update_layer filter add (c :: cur) acc')
    else bind (keeps filter c) (λ keep,
           bind (liftE (if keep : bool then addOrSpill c acc else inr acc))
                (λ acc', update_layer filter (a :: add) cur acc')).
Proof. reflexivity. Qed.

End Loop.

(** ** Adding ranges: [update({ add })] *)

Lemma merging_step (r : Range) (acc acc' : Layer * list Range)
    (add cur add' cur' : list Range) :
  merging acc add cur →
  Forall (λ x, from x ≤ from r) (acc.1 ++ acc.2) →
  Forall (λ y, from r ≤ from y) add' →
  Forall (λ y, from r ≤ from y) cur' →
  (∀ P : Range → Prop, Forall P add → Forall P add') →
  (∀ P : Range → Prop, Forall P cur → Forall P cur') →
  acc' = (acc.1 ++ [r], acc.2) ∨ acc' = (acc.1, acc.2 ++ [r]) →
  merging acc' add' cur'.
Proof.
  intros [Hbelow Hspill] Hr Hadd Hcur Hsubadd Hsubcur Hacc'.
  assert (Hold : Forall (λ x, Forall (λ y, from x ≤ from y) add'
                              ∧ Forall (λ y, from x ≤ from y) cur')
                        (acc.1 ++ acc.2)).
  { eapply Forall_impl; [exact Hbelow|]. cbn. intros x [? ?]. split; auto. }
  apply Forall_app in Hold as [Hold1 Hold2].
  apply Forall_app in Hr as [Hr1 Hr2].
  assert (Hnew : Forall (λ x, Forall (λ y, from x ≤ from y) add'
                              ∧ Forall (λ y, from x ≤ from y) cur') [r]).
  { constructor; [by split|constructor]. }
  destruct Hacc' as [-> | ->]; split; cbn [fst snd].
  - rewrite !Forall_app. by split_and!.
  - done.
  - rewrite !Forall_app. by split_and!.
  - by apply fromSorted_snoc.
Qed.

Lemma merging_below (acc : Layer * list Range) (add cur : list Range) (r : Range) :
  merging acc add cur → r ∈ add ++ cur →
  Forall (λ x, from x ≤ from r) (acc.1 ++ acc.2).
Proof.
  intros [Hbelow _] Hr. eapply Forall_impl; [exact Hbelow|]. cbn.
  intros x [Hadd Hcur]. apply elem_of_app in Hr as [Hr|Hr].
  - by apply (proj1 (Forall_forall _ _) Hadd).
  - by apply (proj1 (Forall_forall _ _) Hcur).
Qed.

(** Permutations of appended lists with single ranges among them. *)
Ltac middle_to_front := cbn [fst snd]; solve_Permutation.

(** One step of the merge: the range that is next goes into the layer or
    is spilled, without exception, and the merge goes on as before. *)
Lemma merging_push (r : Range) (acc : Layer * list Range)
    (add cur add' cur' : list Range) :
  merging acc add cur →
  r ∈ add ++ cur →
  Forall (λ y, from r ≤ from y) add' →
  Forall (λ y, from r ≤ from y) cur' →
  (∀ P : Range → Prop, Forall P add → Forall P add') →
  (∀ P : Range → Prop, Forall P cur → Forall P cur') →
  ∃ acc', addOrSpill r acc = inr acc'
          ∧ acc'.1 ++ acc'.2 ≡ₚ r :: acc.1 ++ acc.2
          ∧ merging acc' add' cur'
          ∧ (Forall (λ a, from a < to a) acc.1 → from r < to r → ordered acc.1 →
             ordered acc'.1 ∧ Forall (λ a, from a < to a) acc'.1).
Proof.
  intros Hinv Hr Hadd' Hcur' Hsubadd Hsubcur.
  pose proof (merging_below acc add cur r Hinv Hr) as Hbelow.
  destruct (addOrSpill_sorted r acc Hbelow) as (acc' & Hpush & Hperm & Hcases & Hord).
  exists acc'. split_and!; try done.
  - by eapply (merging_step r acc acc' add cur add' cur').
  - intros Hne Hr' Hacc. split; [by apply Hord|].
    destruct Hcases as [-> | ->]; cbn [fst]; [|done].
    apply Forall_app. split; [done|by repeat constructor].
Qed.

Lemma update_layer_merges {S} (add : list Range) :
  ∀ (cur : Layer) (acc : Layer * list Range) (s : S),
    fromSorted add → fromSorted cur → merging acc add cur →
    ∃ acc', update_layer None add cur acc s = (s, inr acc')
            ∧ acc'.1 ++ acc'.2 ≡ₚ (acc.1 ++ acc.2) ++ add ++ cur
            ∧ fromSorted acc'.2
            ∧ (Forall (λ a, from a < to a) (acc.1 ++ add ++ cur) → ordered acc.1 →
               ordered acc'.1).
Proof.
  induction add as [|a add IHadd]; intros cur; induction cur as [|c cur IHcur];
    intros acc s Hadd Hcur Hinv.
  - exists acc. rewrite update_layer_done.
    split_and!; [done| |by destruct Hinv|done]. by rewrite !app_nil_r.
  - rewrite update_layer_cursor_only. cbn [keeps].
    destruct Hcur as [Hc Hcur].
    destruct (merging_push c acc [] (c :: cur) [] cur)
      as (acc' & Hpush & Hperm & Hinv' & Hwf'); try done.
    { cbn. left. }
    { intros P HP. by apply Forall_cons in HP as [_ ?]. }
    destruct (IHcur acc' s) as (acc'' & Hrun & Hperm' & Hsorted & Hord'');
      [done|done|done|].
    exists acc''. split_and!; [| |done|].
    + rewrite (bind_value _ _ s s true) by done.
      rewrite (bind_value _ _ s s acc') by (unfold liftE; by rewrite Hpush).
      exact Hrun.
    + rewrite Hperm', Hperm. middle_to_front.
    + intros Hne Hord. cbn [app] in Hne.
      apply Forall_app in Hne as [Hne1 Hne2]. apply Forall_cons in Hne2 as [? ?].
      destruct Hwf' as [? ?]; [done..|].
      apply Hord''; [|done]. cbn [app]. by apply Forall_app.
  - rewrite update_layer_add_only.
    destruct Hadd as [Ha Hadd].
    destruct (merging_push a acc (a :: add) [] add [])
      as (acc' & Hpush & Hperm & Hinv' & Hwf'); try done.
    { rewrite app_nil_r. left. }
    { intros P HP. by apply Forall_cons in HP as [_ ?]. }
    destruct (IHadd [] acc' s) as (acc'' & Hrun & Hperm' & Hsorted & Hord'');
      [done|done|done|].
    exists acc''. split_and!; [| |done|].
    + rewrite (bind_value _ _ s s acc') by (unfold liftE; by rewrite Hpush).
      exact Hrun.
    + rewrite Hperm', Hperm. middle_to_front.
    + intros Hne Hord. rewrite app_nil_r in Hne.
      apply Forall_app in Hne as [Hne1 Hne2]. apply Forall_cons in Hne2 as [? ?].
      destruct Hwf' as [? ?]; [done..|].
      apply Hord''; [|done]. rewrite app_nil_r. by apply Forall_app.
  - rewrite update_layer_both.
    destruct Hadd as [Ha Hadd]. destruct Hcur as [Hc Hcur].
    case_bool_decide as Hle.
    + destruct (merging_push a acc (a :: add) (c :: cur) add (c :: cur))
        as (acc' & Hpush & Hperm & Hinv' & Hwf'); try done.
      { cbn. left. }
      { constructor; [done|]. eapply Forall_impl; [exact Hc|]. cbn. intros; lia. }
      { intros P HP. by apply Forall_cons in HP as [_ ?]. }
      destruct (IHadd (c :: cur) acc' s)
        as (acc'' & Hrun & Hperm' & Hsorted & Hord''); [done|done|done|].
      exists acc''. split_and!; [| |done|].
      * rewrite (bind_value _ _ s s acc') by (unfold liftE; by rewrite Hpush).
        exact Hrun.
      * rewrite Hperm', Hperm. middle_to_front.
      * intros Hne Hord. apply Forall_app in Hne as [Hne1 Hne2].
        cbn [app] in Hne2. apply Forall_cons in Hne2 as [? ?].
        destruct Hwf' as [? ?]; [done..|].
        apply Hord''; [|done]. by apply Forall_app.
    + destruct (merging_push c acc (a :: add) (c :: cur) (a :: add) cur)
        as (acc' & Hpush & Hperm & Hinv' & Hwf'); try done.
      { apply elem_of_app. right. left. }
      { constructor; [lia|]. eapply Forall_impl; [exact Ha|]. cbn. intros; lia. }
      { intros P HP. by apply Forall_cons in HP as [_ ?]. }
      destruct (IHcur acc' s) as (acc'' & Hrun & Hperm' & Hsorted & Hord'');
        [done|done|done|].
      exists acc''. split_and!; [| |done|].
      * cbn [keeps]. rewrite (bind_value _ _ s s true) by done.
        rewrite (bind_value _ _ s s acc') by (unfold liftE; by rewrite Hpush).
        exact Hrun.
      * rewrite Hperm', Hperm. middle_to_front.
      * intros Hne Hord. apply Forall_app in Hne as [Hne1 Hne2].
        apply Forall_app in Hne2 as [Hne2 Hne3].
        apply Forall_cons in Hne3 as [? ?].
        destruct Hwf' as [? ?]; [done..|].
        apply Hord''; [|done]. rewrite !Forall_app. done.
Qed.

(** [update({ add })] of ranges ordered by [from] on a set whose layers are
    ordered by [from]: no exception, the state untouched, and the ranges of
    the result are the ranges added and the ranges of the set.  If the set
    is well-formed and no added range is empty, the result is well-formed
    again. *)
Lemma RangeSet_update_add {S} (set : RangeSet) :
  ∀ (add : list Range) (s : S),
    Forall fromSorted set → fromSorted add →
    ∃ set', RangeSet_update None add set s = (s, inr set')
            ∧ ranges set' ≡ₚ add ++ ranges set
            ∧ (wf_set set → Forall (λ a, from a < to a) add → wf_set set').
Proof.
  unfold ranges. induction set as [|layer next IH]; intros add s Hset Hadd.
  - cbn [RangeSet_update concat]. destruct add as [|a add].
    + by exists [].
    + destruct (RangeSet_of_sorted (a :: add) Hadd) as (set' & Hof & Hperm).
      exists set'. unfold liftE. rewrite Hof. split_and!; [done| |].
      * by rewrite app_nil_r.
      * intros _ Hne.
        apply (RangeSet_of_from_wf (a :: add) [] set' Hof); [constructor|done].
  - apply Forall_cons in Hset as [Hlayer Hnext].
    destruct add as [|a add].
    + cbn [RangeSet_update]. by exists (layer :: next).
    + cbn [RangeSet_update].
      destruct (update_layer_merges (a :: add) layer ([], []) s)
        as (acc & Hrun & Hperm & Hsorted & Hord); [done|done|by split|].
      destruct (IH acc.2 s Hnext Hsorted) as (next' & Hnext' & Hperm' & Hwf').
      exists (match acc.1 with [] => next' | _ => acc.1 :: next' end).
      split_and!.
      * rewrite (bind_value _ _ s s acc) by exact Hrun.
        rewrite (bind_value _ _ s s next') by exact Hnext'. done.
      * cbn [fst snd app] in Hperm. cbn [concat].
        transitivity (acc.1 ++ concat next').
        { by destruct acc.1. }
        rewrite Hperm', app_assoc, Hperm. solve_Permutation.
      * intros Hwf Hne. apply Forall_cons in Hwf as [(_ & _ & Hlayer') Hwfnext].
        assert (Hall : Forall (λ a, from a < to a) (acc.1 ++ acc.2)).
        { rewrite Hperm. cbn [fst snd app].
          apply (Forall_app _ (a :: add) layer). by split. }
        apply Forall_app in Hall as [Hall1 Hall2].
        specialize (Hwf' Hwfnext Hall2).
        assert (Hbuilt : ordered acc.1).
        { apply Hord; [|done]. cbn [fst app].
          apply (Forall_app _ (a :: add) layer). by split. }
        destruct acc.1 as [|r built]; [done|].
        constructor; [|done]. by split_and!.
Qed.

End CodeMirrorTheory.


(* ===================================================================== *)
(** * Theorems: the authorship state field *)
(* ===================================================================== *)

Module AuthorshipTheory.
Import CodeMirror Authorship AuthorshipSpec CodeMirrorTheory.

Section Field.

Variable authorship_highlight : string.
Variable createRealtimeColorCssClass : Z → string.
Context {ChangeSet : Type}.
Variable RangeSet_map : DecorationSet → ChangeSet → DecorationSet.

Abbreviation createMark := (createMark authorship_highlight createRealtimeColorCssClass).
Abbreviation pushMark := (pushMark authorship_highlight createRealtimeColorCssClass).
Abbreviation filterDecoration :=
  (filterDecoration authorship_highlight createRealtimeColorCssClass).
Abbreviation applyEffect := (applyEffect authorship_highlight createRealtimeColorCssClass).
Abbreviation forEach := (forEach authorship_highlight createRealtimeColorCssClass).
Abbreviation update :=
  (update authorship_highlight createRealtimeColorCssClass RangeSet_map).
Abbreviation markOf := (markOf authorship_highlight createRealtimeColorCssClass).
Abbreviation marksOf := (marksOf authorship_highlight createRealtimeColorCssClass).
Abbreviation pushed := (pushed authorship_highlight createRealtimeColorCssClass).
Abbreviation handled_state :=
  (handled_state authorship_highlight createRealtimeColorCssClass).
Abbreviation addPass := (addPass authorship_highlight createRealtimeColorCssClass).

(** ** Marks *)

Lemma userOf_markOf cs from to u : userOf (markOf cs from to u) = u.
Proof.
  unfold userOf, decorationUserIdOf, markOf. cbn [value attributes].
  cbn [mbind option_bind]. by rewrite lookup_singleton_eq.
Qed.

Lemma span_markOf cs from to u : span (markOf cs from to u) = (from, to, u).
Proof. unfold span. by rewrite userOf_markOf. Qed.

Lemma span_marksOf cs spans : span <$> marksOf cs spans = spans.
Proof.
  revert cs. induction spans as [|[[f t] u] rest IH]; intros cs; [done|].
  cbn [AuthorshipSpec.marksOf fmap list_fmap]. rewrite span_markOf. f_equal. apply IH.
Qed.

Lemma pushMark_eq from to u s :
  pushMark from to u s
  = if bool_decide (from < to)
    then (pushed s from to u, inr tt)
    else (set_colorSet (Set_add u) s,
          inl (RangeError "Mark decorations may not be empty")).
Proof.
  unfold Authorship.pushMark, Authorship.createMark, bind, modify, gets, liftE,
    mark_range.
  cbn [colorSet set_colorSet]. repeat case_bool_decide; try lia; reflexivity.
Qed.

(** ** The filter closure *)

Lemma filterDecoration_handled effect from to value s :
  effectHandled s = true →
  filterDecoration effect from to value s = (s, inr true).
Proof.
  intros Hs. unfold Authorship.filterDecoration, bind, gets. by rewrite Hs.
Qed.

(** Case distinction on a condition the code decides. *)
Ltac by_cases P :=
  destruct (decide P);
  [ rewrite ?(bool_decide_eq_true_2 P) by done
  | rewrite ?(bool_decide_eq_false_2 P) by done ].

(** A decoration met while no decoration has been handled yet is handled:
    the filter makes the marks of its [replacement], sets [effectHandled]
    and drops the decoration. *)
Lemma filterDecoration_handles effect d s :
  effectHandled s = false →
  Forall nonempty_span (replacement effect d) →
  filterDecoration effect (from d) (to d) (value d) s
  = (handled_state s (replacement effect d), inr false).
Proof.
  intros Hs Hspans. unfold Authorship.filterDecoration, replacement, AuthorshipSpec.handled_state in *.
  fold (userOf d) in *. unfold bind at 1. unfold gets at 1. rewrite Hs.
  rewrite andb_true_r. destruct s as [cs handled added]. cbn in Hs. subst handled.
  unfold nonempty_span in Hspans.
  destruct (bool_decide (userOf d = userId effect)).
  - destruct (bool_decide (from d = upd_to effect)
              || bool_decide (to d = upd_from effect)).
    + apply Forall_cons in Hspans as [H1 _]. cbn in H1.
      unfold bind. rewrite pushMark_eq, bool_decide_eq_true_2 by done. reflexivity.
    + apply Forall_cons in Hspans as [H1 _]. cbn in H1.
      unfold bind. rewrite pushMark_eq, bool_decide_eq_true_2 by done. reflexivity.
  - destruct (bool_decide (from d < upd_from effect)) eqn:Hbefore;
      destruct (bool_decide (upd_to effect < to d)) eqn:Hafter;
      cbn [app] in Hspans;
      repeat match goal with
             | H : Forall _ (_ :: _) |- _ =>
                 let H1 := fresh "H" in
                 apply Forall_cons in H as [H1 H]; cbn in H1
             end;
      unfold bind; cbn [ret];
      repeat (rewrite pushMark_eq, bool_decide_eq_true_2 by done);
      unfold modify, ret, AuthorshipSpec.pushed, set_effectHandled;
      cbn [colorSet effectHandled addedDecorations app
           AuthorshipSpec.marksOf AuthorshipSpec.colorsAfter];
      rewrite <- ?app_assoc; reflexivity.
Qed.

(** Whatever the filter returns for a decoration met while none has been
    handled, it is [false], and then the marks of the [replacement] are all
    made: a span that is empty ends the update in an exception. *)
Lemma filterDecoration_returns effect d s s' keep :
  effectHandled s = false →
  filterDecoration effect (from d) (to d) (value d) s = (s', inr keep) →
  Forall nonempty_span (replacement effect d).
Proof.
  intros Hs. unfold Authorship.filterDecoration, replacement, nonempty_span.
  fold (userOf d). unfold bind at 1. unfold gets at 1. rewrite Hs.
  rewrite andb_true_r.
  destruct (bool_decide (userOf d = userId effect)).
  - destruct (bool_decide (from d = upd_to effect)
              || bool_decide (to d = upd_from effect));
      unfold bind; rewrite pushMark_eq; case_bool_decide;
      intros Hrun; try discriminate Hrun; by constructor.
  - by_cases (from d < upd_from effect); by_cases (upd_to effect < to d);
      by_cases (upd_from effect < upd_to effect);
      unfold bind; cbn [ret app];
      repeat (rewrite pushMark_eq;
              rewrite ?bool_decide_eq_true_2, ?bool_decide_eq_false_2 by done;
              cbv beta iota);
      intros Hrun; try discriminate Hrun;
      repeat (apply Forall_cons_2; [cbn; lia|]); apply Forall_nil_2.
Qed.

(** ** The filter pass over a layer *)

Abbreviation filterOf effect :=
  (Some (filterDecoration effect, upd_from effect, upd_to effect)).

Lemma keeps_eq effect r s :
  keeps (filterOf effect) r s
  = if touches effect r
    then filterDecoration effect (from r) (to r) (value r) s
    else (s, inr true).
Proof.
  unfold keeps, touches.
  by destruct (bool_decide (to r < upd_from effect)
               || bool_decide (upd_to effect < from r)).
Qed.

Lemma keeps_kept effect r s :
  effectHandled s = true ∨ touches effect r = false →
  keeps (filterOf effect) r s = (s, inr true).
Proof.
  intros Hcase. rewrite keeps_eq. destruct (touches effect r); [|done].
  destruct Hcase as [Hs|?]; [|done]. by apply filterDecoration_handled.
Qed.

Lemma addOrSpill_after (r : Range) (built : Layer) :
  Forall (λ a, to a ≤ from r) built →
  addOrSpill r (built, []) = inr (built ++ [r], []).
Proof.
  intros Hall. unfold addOrSpill. cbn [fst snd]. by rewrite addInner_after.
Qed.

Lemma ordered_before built r cur :
  ordered (built ++ r :: cur) → Forall (λ a, to a ≤ from r) built.
Proof.
  intros Hord. apply ordered_app in Hord as (_ & _ & Hall).
  eapply Forall_impl; [exact Hall|]. cbn. intros a Ha.
  by apply Forall_cons in Ha as [? _].
Qed.

(** Once a decoration has been handled, or where no range is within the
    bounds of the filter, the pass leaves the layer as it is. *)
Lemma update_layer_keeps effect cur : ∀ built s,
  effectHandled s = true ∨ Forall (λ r, touches effect r = false) cur →
  ordered (built ++ cur) →
  update_layer (filterOf effect) [] cur (built, []) s
  = (s, inr (built ++ cur, [])).
Proof.
  induction cur as [|c cur IH]; intros built s Hcase Hord.
  - rewrite update_layer_done. by rewrite app_nil_r.
  - rewrite update_layer_cursor_only.
    rewrite (bind_value _ _ s s true).
    2:{ apply keeps_kept. destruct Hcase as [?|Hall]; [by left|right].
        by apply Forall_cons in Hall as [? _]. }
    rewrite (bind_value _ _ s s (built ++ [c], [])).
    2:{ unfold liftE. rewrite addOrSpill_after; [done|].
        by eapply ordered_before. }
    rewrite IH.
    + by rewrite <- app_assoc.
    + destruct Hcase as [?|Hall]; [by left|right].
      by apply Forall_cons in Hall as [_ ?].
    + by rewrite <- app_assoc.
Qed.

(** The pass over a layer whose first range within the bounds is [d]: the
    filter runs on [d]; if it throws, so does the pass; if it handles [d],
    the layer is left without [d]. *)
Lemma update_layer_at effect l1 d l2 : ∀ built s s' outcome,
  Forall (λ r, touches effect r = false) l1 →
  touches effect d = true →
  filterDecoration effect (from d) (to d) (value d) s = (s', outcome) →
  (∀ keep, outcome = inr keep → keep = false ∧ effectHandled s' = true) →
  ordered (built ++ l1 ++ d :: l2) →
  update_layer (filterOf effect) [] (l1 ++ d :: l2) (built, []) s
  = (s', match outcome with
         | inl e => inl e
         | inr _ => inr (built ++ l1 ++ l2, [])
         end).
Proof.
  induction l1 as [|c l1 IH]; intros built s s' outcome Hl1 Hd Hrun Hout Hord.
  - cbn [app] in *. rewrite update_layer_cursor_only.
    destruct outcome as [e|keep].
    + apply bind_exception. by rewrite keeps_eq, Hd.
    + destruct (Hout keep eq_refl) as [-> Hs'].
      rewrite (bind_value _ _ s s' false) by (by rewrite keeps_eq, Hd).
      rewrite (bind_value _ _ s' s' (built, [])) by done.
      apply update_layer_keeps; [by left|]. by eapply ordered_remove.
  - apply Forall_cons in Hl1 as [Hc Hl1]. cbn [app].
    rewrite update_layer_cursor_only.
    rewrite (bind_value _ _ s s true) by (apply keeps_kept; by right).
    rewrite (bind_value _ _ s s (built ++ [c], [])).
    2:{ unfold liftE. rewrite addOrSpill_after; [done|].
        eapply (ordered_before built c). exact Hord. }
    rewrite (IH (built ++ [c]) s s' outcome); try done.
    + destruct outcome; [done|]. by rewrite <- !app_assoc.
    + by rewrite <- app_assoc.
Qed.

(** ** The filter pass over a set *)

Lemma wf_layer_remove l1 d l2 :
  wf_layer (l1 ++ d :: l2) → l1 ++ l2 ≠ [] → wf_layer (l1 ++ l2).
Proof.
  intros (_ & Hord & Hne) Hrest. split_and!; [done|by eapply ordered_remove|].
  apply Forall_app in Hne as [? Hne]. apply Forall_cons in Hne as [_ ?].
  by apply Forall_app.
Qed.

Lemma ranges_layer_or_next layer next :
  ranges (layer_or_next layer next) = layer ++ ranges next.
Proof. by destruct layer. Qed.

Lemma RangeSet_update_filter {S} (f : (Z → Z → Decoration → M S bool) * Z * Z)
    (layer : Layer) (next : RangeSet) :
  RangeSet_update (Some f) [] (layer :: next)
  = bind (update_layer (Some f) [] layer ([], []))
         (λ acc, bind (RangeSet_update (Some f) acc.2 next)
                      (λ next', ret (layer_or_next acc.1 next'))).
Proof. reflexivity. Qed.

Lemma filter_pass_keeps effect set : ∀ s,
  wf_set set →
  effectHandled s = true ∨ Forall (λ r, touches effect r = false) (ranges set) →
  RangeSet_update (filterOf effect) [] set s = (s, inr set).
Proof.
  induction set as [|layer next IH]; intros s Hwf Hcase; [done|].
  apply Forall_cons in Hwf as [(Hne & Hord & _) Hwf].
  rewrite RangeSet_update_filter.
  rewrite (bind_value _ _ s s (layer, [])).
  2:{ apply (update_layer_keeps effect layer [] s); [|done].
      destruct Hcase as [?|Hall]; [by left|right].
      unfold ranges in Hall. cbn [concat] in Hall.
      by apply Forall_app in Hall as [? _]. }
  cbn [fst snd]. rewrite (bind_value _ _ s s next).
  2:{ apply IH; [done|]. destruct Hcase as [?|Hall]; [by left|right].
      unfold ranges in Hall. cbn [concat] in Hall.
      by apply Forall_app in Hall as [_ ?]. }
  unfold ret. by destruct layer.
Qed.

(** The pass over a set whose first range within the bounds, layer by
    layer, is [d]: if the filter throws on [d], so does the pass; if it
    handles [d], the set is left without [d], all other ranges in place. *)
Lemma filter_pass_at effect set : ∀ l1 d l2 s s' outcome,
  wf_set set →
  ranges set = l1 ++ d :: l2 →
  Forall (λ r, touches effect r = false) l1 →
  touches effect d = true →
  filterDecoration effect (from d) (to d) (value d) s = (s', outcome) →
  (∀ keep, outcome = inr keep → keep = false ∧ effectHandled s' = true) →
  ∃ set',
    RangeSet_update (filterOf effect) [] set s
    = (s', match outcome with inl e => inl e | inr _ => inr set' end)
    ∧ ranges set' = l1 ++ l2 ∧ wf_set set'.
Proof.
  induction set as [|layer next IH];
    intros l1 d l2 s s' outcome Hwf Hranges Hl1 Hd Hrun Hout.
  { by destruct l1. }
  apply Forall_cons in Hwf as [Hlayer Hnext].
  unfold ranges in Hranges. cbn [concat] in Hranges.
  rewrite RangeSet_update_filter.
  assert (Hin : (∃ k, layer = l1 ++ d :: k ∧ l2 = k ++ ranges next)
                ∨ (∃ k, l1 = layer ++ k ∧ ranges next = k ++ d :: l2)).
  { apply app_eq_inv in Hranges as [(k & Hlayer' & Hrest)|(k & ? & ?)].
    - destruct k as [|d' k].
      + right. exists []. by rewrite !app_nil_r in *.
      + left. exists k. cbn [app] in Hrest. by inversion Hrest; subst.
    - right. by exists k. }
  destruct Hin as [(k & -> & ->)|(k & -> & Hrest)].
  - exists (layer_or_next (l1 ++ k) next). split_and!.
    + pose proof (update_layer_at effect l1 d k [] s s' outcome Hl1 Hd Hrun Hout)
        as Hpass.
      cbn [app] in Hpass. specialize (Hpass (proj1 (proj2 Hlayer))).
      destruct outcome as [e|keep]; [by apply bind_exception|].
      destruct (Hout keep eq_refl) as [_ Hs'].
      rewrite (bind_value _ _ s s' (l1 ++ k, [])) by exact Hpass.
      cbn [fst snd]. rewrite (bind_value _ _ s' s' next); [done|].
      apply filter_pass_keeps; [done|by left].
    + rewrite ranges_layer_or_next. by rewrite <- app_assoc.
    + destruct (l1 ++ k) as [|r rest] eqn:Hrest; [done|].
      constructor; [|done]. rewrite <- Hrest.
      apply (wf_layer_remove l1 d k); [done|]. by rewrite Hrest.
  - apply Forall_app in Hl1 as [Hlayer' Hk].
    destruct (IH k d l2 s s' outcome) as (next' & Hnext' & Hr' & Hwf'); try done.
    exists (layer :: next'). split_and!.
    + rewrite (bind_value _ _ s s (layer, [])).
      2:{ apply (update_layer_keeps effect layer [] s); [by right|].
          by destruct Hlayer as (_ & ? & _). }
      cbn [fst snd]. destruct outcome as [e|keep].
      * by apply bind_exception.
      * rewrite (bind_value _ _ s s' next') by done.
        unfold ret. destruct Hlayer as (? & _). by destruct layer.
    + unfold ranges in *. cbn [concat]. by rewrite Hr', <- app_assoc.
    + by constructor.
Qed.

(** ** One effect *)

Lemma applyEffect_passes set effect s :
  applyEffect set effect s
  = bind (RangeSet_update (filterOf effect) [] set) (addPass effect) (fresh s).
Proof. reflexivity. Qed.

Lemma wf_set_fromSorted set : wf_set set → Forall fromSorted set.
Proof.
  intros Hwf. eapply Forall_impl; [exact Hwf|]. apply wf_layer_fromSorted.
Qed.

Lemma replacement_nonempty effect d : replacement effect d ≠ [].
Proof.
  unfold replacement.
  destruct (bool_decide (userOf d = userId effect)).
  - by destruct (bool_decide (from d = upd_to effect)
                 || bool_decide (to d = upd_from effect)).
  - by destruct (bool_decide (from d < upd_from effect)).
Qed.

Lemma marksOf_nonempty cs spans : spans ≠ [] → marksOf cs spans ≠ [].
Proof. by destruct spans as [|[[? ?] ?] ?]. Qed.

Lemma marksOf_nonempty_ranges cs spans :
  Forall nonempty_span spans → Forall (λ r, from r < to r) (marksOf cs spans).
Proof.
  revert cs. induction spans as [|[[f t] u] rest IH]; intros cs Hall; [constructor|].
  apply Forall_cons in Hall as [Hsp Hall]. cbn [AuthorshipSpec.marksOf].
  constructor; [exact Hsp|by apply IH].
Qed.

(** The marks of a replacement come in the order of their [from], as
    [update({ add })] wants them. *)
Lemma replacement_sorted cs effect d :
  Forall nonempty_span (replacement effect d) →
  fromSorted (marksOf cs (replacement effect d)).
Proof.
  unfold replacement, nonempty_span.
  destruct (bool_decide (userOf d = userId effect)).
  - by destruct (bool_decide (from d = upd_to effect)
                 || bool_decide (to d = upd_from effect)).
  - by_cases (from d < upd_from effect); by_cases (upd_to effect < to d);
      cbn [app]; intros Hall;
      repeat match goal with
             | H : Forall _ (_ :: _) |- _ =>
                 let H1 := fresh "H" in
                 apply Forall_cons in H as [H1 H]; cbn in H1
             end;
      cbn [AuthorshipSpec.marksOf fromSorted];
      repeat split; repeat (apply Forall_cons_2; [cbn; lia|]);
      try apply Forall_nil_2.
Qed.

(** No decoration is within the bounds of the effect: the set keeps all
    its decorations and gets the mark of the effect. *)
Lemma applyEffect_untouched effect set s :
  wf_set set →
  Forall (λ r, touches effect r = false) (ranges set) →
  applyEffect set effect s
  = if bool_decide (upd_from effect < upd_to effect)
    then RangeSet_update None
           [markOf (colorSet s) (upd_from effect) (upd_to effect) (userId effect)]
           set
           (pushed (fresh s) (upd_from effect) (upd_to effect) (userId effect))
    else (set_colorSet (Set_add (userId effect)) (fresh s),
          inl (RangeError "Mark decorations may not be empty")).
Proof.
  intros Hwf Hnone. rewrite applyEffect_passes.
  rewrite (bind_value _ _ (fresh s) (fresh s) set)
    by (apply filter_pass_keeps; [done|by right]).
  unfold AuthorshipSpec.addPass. unfold bind at 1. unfold gets at 1.
  cbn [fresh addedDecorations length]. rewrite bool_decide_eq_true_2 by done.
  unfold bind at 1. rewrite pushMark_eq. by case_bool_decide.
Qed.

(** The first decoration within the bounds of the effect, layer by layer,
    is [d], and all marks of its replacement can be made: [d] gives way to
    these marks, every other decoration stays. *)
Lemma applyEffect_handles effect set l1 d l2 s :
  wf_set set →
  ranges set = l1 ++ d :: l2 →
  Forall (λ r, touches effect r = false) l1 →
  touches effect d = true →
  Forall nonempty_span (replacement effect d) →
  ∃ res,
    applyEffect set effect s
    = (handled_state (fresh s) (replacement effect d), inr res)
    ∧ ranges res ≡ₚ marksOf (colorSet s) (replacement effect d) ++ l1 ++ l2
    ∧ wf_set res.
Proof.
  intros Hwf Hranges Hl1 Hd Hspans.
  pose proof (filterDecoration_handles effect d (fresh s) eq_refl Hspans) as Hrun.
  destruct (filter_pass_at effect set l1 d l2 (fresh s) _ _ Hwf Hranges Hl1 Hd Hrun)
    as (set' & Hpass & Hranges' & Hwf').
  { intros keep [= <-]. done. }
  destruct (RangeSet_update_add set'
              (marksOf (colorSet s) (replacement effect d))
              (handled_state (fresh s) (replacement effect d)))
    as (res & Hadd & Hperm & Hwfres).
  { by apply wf_set_fromSorted. }
  { by apply replacement_sorted. }
  exists res. split_and!; [|by rewrite Hperm, Hranges'|].
  2:{ apply Hwfres; [done|]. by apply marksOf_nonempty_ranges. }
  rewrite applyEffect_passes. rewrite (bind_value _ _ _ _ set' Hpass).
  unfold AuthorshipSpec.addPass. unfold bind at 1. unfold gets at 1.
  cbn [AuthorshipSpec.handled_state fresh addedDecorations colorSet app].
  rewrite bool_decide_eq_false_2.
  2:{ intros Hlen. apply nil_length_inv in Hlen.
      exact (marksOf_nonempty _ _ (replacement_nonempty effect d) Hlen). }
  unfold bind at 1. unfold ret at 1. unfold bind at 1. unfold gets at 1.
  exact Hadd.
Qed.

(** The filter throws on the first decoration within the bounds: so does
    the update. *)
Lemma applyEffect_throws effect set l1 d l2 s s' e :
  wf_set set →
  ranges set = l1 ++ d :: l2 →
  Forall (λ r, touches effect r = false) l1 →
  touches effect d = true →
  filterDecoration effect (from d) (to d) (value d) (fresh s) = (s', inl e) →
  applyEffect set effect s = (s', inl e).
Proof.
  intros Hwf Hranges Hl1 Hd Hrun.
  destruct (filter_pass_at effect set l1 d l2 (fresh s) _ _ Hwf Hranges Hl1 Hd Hrun)
    as (set' & Hpass & _); [done|].
  rewrite applyEffect_passes. by apply bind_exception.
Qed.

(** ** The update of the state field *)

Lemma bind_ret {S A} (m : M S A) s : bind m ret s = m s.
Proof. unfold bind, ret. by destruct (m s) as [s' [e|a]]. Qed.

(** A transaction with one authorship update: the update is the callback
    of [forEach] on the mapped decorations. *)
Lemma update_single ds (tr : Transaction ChangeSet) effect s :
  authorshipUpdates tr = [effect] →
  update ds tr s = applyEffect (RangeSet_map ds (changes tr)) effect s.
Proof.
  unfold authorshipUpdates, Authorship.update. intros ->.
  cbn [length Authorship.forEach]. rewrite bool_decide_eq_false_2 by done.
  apply bind_ret.
Qed.

Lemma first_touching effect (l : list Range) :
  Forall (λ r, touches effect r = false) l
  ∨ ∃ l1 d l2, l = l1 ++ d :: l2
               ∧ Forall (λ r, touches effect r = false) l1
               ∧ touches effect d = true.
Proof.
  induction l as [|r l IH]; [left; constructor|].
  destruct (touches effect r) eqn:Hr.
  - right. exists [], r, l. split_and!; [done|constructor|done].
  - destruct IH as [Hall|(l1 & d & l2 & -> & Hl1 & Hd)].
    + left. by constructor.
    + right. exists (r :: l1), d, l2. split_and!; [done|by constructor|done].
Qed.

Lemma adjacent_touches effect d :
  upd_from effect ≤ upd_to effect → from d < to d → adjacent effect d →
  touches effect d = true.
Proof.
  unfold adjacent, touches. intros He Hd Hadj.
  rewrite !bool_decide_eq_false_2 by lia. done.
Qed.

Lemma overlaps_touches effect d :
  overlaps effect d → touches effect d = true ∧ upd_from effect < upd_to effect.
Proof.
  unfold overlaps, touches. intros Hov.
  rewrite !bool_decide_eq_false_2 by lia. split; [done|lia].
Qed.

Lemma wf_set_nonempty set l1 d l2 :
  wf_set set → ranges set = l1 ++ d :: l2 → from d < to d.
Proof.
  intros Hwf Hranges.
  assert (Hall : Forall (λ r, from r < to r) (ranges set)).
  { unfold ranges. apply Forall_concat. eapply Forall_impl; [exact Hwf|].
    by intros layer (_ & _ & ?). }
  rewrite Hranges in Hall. apply Forall_app in Hall as [_ Hall].
  by apply Forall_cons in Hall as [? _].
Qed.

(** One effect whose first decoration within the bounds is by the user of
    the effect and adjacent to the effect range: the decoration and the
    effect become one mark, all other decorations stay. *)
Lemma applyEffect_merges_adjacent effect set l1 d l2 s :
  wf_set set →
  upd_from effect ≤ upd_to effect →
  ranges set = l1 ++ d :: l2 →
  Forall (λ r, touches effect r = false) l1 →
  userOf d = userId effect →
  adjacent effect d →
  ∃ s' res,
    applyEffect set effect s = (s', inr res)
    ∧ ranges res
      ≡ₚ markOf (colorSet s) (Z.min (from d) (upd_from effect))
                (Z.max (to d) (upd_to effect)) (userId effect)
         :: l1 ++ l2.
Proof.
  intros Hwf He Hranges Hl1 Huser Hadj.
  pose proof (wf_set_nonempty _ _ _ _ Hwf Hranges) as Hd.
  assert (Hrepl : replacement effect d
                  = [(Z.min (from d) (upd_from effect),
                      Z.max (to d) (upd_to effect), userId effect)]).
  { unfold replacement. rewrite bool_decide_eq_true_2 by done.
    assert (bool_decide (from d = upd_to effect)
            || bool_decide (to d = upd_from effect) = true) as ->.
    { apply orb_true_iff. destruct Hadj; [left|right]; by apply bool_decide_eq_true. }
    by rewrite Huser. }
  destruct (applyEffect_handles effect _ l1 d l2 s Hwf Hranges Hl1)
    as (res & Hrun & Hperm & _).
  { by apply adjacent_touches. }
  { rewrite Hrepl. apply Forall_cons_2; [|apply Forall_nil_2].
    unfold nonempty_span. cbn. lia. }
  rewrite Hrepl in Hperm. cbn [AuthorshipSpec.marksOf app] in Hperm.
  by eexists _, res.
Qed.

(** One effect, whatever the set: if the callback returns, then either no
    decoration was within the bounds and the set got the mark of the effect,
    or the first decoration within the bounds gave way to the marks of its
    replacement; all other decorations are in the result. *)
Lemma applyEffect_returns effect set s s' res :
  wf_set set →
  applyEffect set effect s = (s', inr res) →
  (Forall (λ r, touches effect r = false) (ranges set)
   ∧ upd_from effect < upd_to effect
   ∧ ranges res
     ≡ₚ markOf (colorSet s) (upd_from effect) (upd_to effect) (userId effect)
        :: ranges set)
  ∨ (∃ l1 d l2,
       ranges set = l1 ++ d :: l2
       ∧ Forall (λ r, touches effect r = false) l1
       ∧ touches effect d = true
       ∧ Forall nonempty_span (replacement effect d)
       ∧ ranges res ≡ₚ marksOf (colorSet s) (replacement effect d) ++ l1 ++ l2).
Proof.
  intros Hwf Hrun.
  destruct (first_touching effect (ranges set))
    as [Hnone|(l1 & d & l2 & Hranges & Hl1 & Hd)].
  - left. rewrite (applyEffect_untouched effect set s Hwf Hnone) in Hrun.
    case_bool_decide as He; [|discriminate Hrun].
    split_and!; [done|done|].
    destruct (RangeSet_update_add set
                [markOf (colorSet s) (upd_from effect) (upd_to effect)
                        (userId effect)]
                (pushed (fresh s) (upd_from effect) (upd_to effect)
                        (userId effect)))
      as (res' & Hadd & Hperm & _); [by apply wf_set_fromSorted|by cbn|].
    rewrite Hadd in Hrun. by injection Hrun as _ <-.
  - right. exists l1, d, l2.
    destruct (filterDecoration effect (from d) (to d) (value d) (fresh s))
      as [s1 [e|keep]] eqn:Hfilter.
    + rewrite (applyEffect_throws effect set l1 d l2 s s1 e) in Hrun by done.
      discriminate Hrun.
    + pose proof (filterDecoration_returns effect d (fresh s) s1 keep eq_refl
                    Hfilter) as Hspans.
      destruct (applyEffect_handles effect set l1 d l2 s)
        as (res' & Hrun' & Hperm & _); try done.
      rewrite Hrun' in Hrun. by injection Hrun as _ <-.
Qed.

Lemma applyEffect_total effect set s :
  wf_set set → upd_from effect < upd_to effect →
  ∃ s' res, applyEffect set effect s = (s', inr res).
Proof.
  intros Hwf He.
  destruct (first_touching effect (ranges set))
    as [Hnone|(l1 & d & l2 & Hranges & Hl1 & Hd)].
  - rewrite (applyEffect_untouched effect set s Hwf Hnone).
    rewrite bool_decide_eq_true_2 by done.
    destruct (RangeSet_update_add set
                [markOf (colorSet s) (upd_from effect) (upd_to effect)
                        (userId effect)]
                (pushed (fresh s) (upd_from effect) (upd_to effect)
                        (userId effect)))
      as (res & Hadd & _ & _); [by apply wf_set_fromSorted|by cbn|].
    by eexists _, res.
  - pose proof (wf_set_nonempty _ _ _ _ Hwf Hranges) as Hne.
    destruct (applyEffect_handles effect set l1 d l2 s) as (res & Hrun & _ & _);
      try done; [|by eexists _, res].
    unfold replacement, nonempty_span.
    by_cases (userOf d = userId effect).
    + by_cases (from d = upd_to effect); [|by_cases (to d = upd_from effect)];
        cbn [orb]; (apply Forall_cons_2; [cbn; lia|apply Forall_nil_2]).
    + by_cases (from d < upd_from effect); by_cases (upd_to effect < to d);
        cbn [app]; repeat (apply Forall_cons_2; [cbn; lia|]); apply Forall_nil_2.
Qed.

(** The first decoration within the bounds of an effect is one
    decoration: a list of ranges is cut at it in one way only. *)
Lemma first_touching_unique effect (l1 : list Range) d l2 l1' d' l2' :
  l1 ++ d :: l2 = l1' ++ d' :: l2' →
  Forall (λ r, touches effect r = false) l1 → touches effect d = true →
  Forall (λ r, touches effect r = false) l1' → touches effect d' = true →
  l1 = l1' ∧ d = d' ∧ l2 = l2'.
Proof.
  revert l1'. induction l1 as [|r l1 IH]; intros [|r' l1'] Heq Hl1 Hd Hl1' Hd';
    cbn [app] in Heq.
  - by injection Heq as -> ->.
  - injection Heq as -> _. apply Forall_cons in Hl1' as [Hr' _]. congruence.
  - injection Heq as -> _. apply Forall_cons in Hl1 as [Hr _]. congruence.
  - injection Heq as -> Heq.
    apply Forall_cons in Hl1 as [_ Hl1]. apply Forall_cons in Hl1' as [_ Hl1'].
    destruct (IH l1' Heq Hl1 Hd Hl1' Hd') as (-> & -> & ->). done.
Qed.

(** Whenever the callback returns, every decoration but the first one
    within the bounds of the effect is in the set it returns, as it was:
    whose it is and whether it touches, overlaps or is adjacent to the
    effect range makes no difference. *)
Lemma applyEffect_keeps_others effect set l1 d l2 s s' res :
  wf_set set →
  ranges set = l1 ++ d :: l2 →
  Forall (λ r, touches effect r = false) l1 →
  touches effect d = true →
  applyEffect set effect s = (s', inr res) →
  ∀ d', d' ∈ l1 ++ l2 → d' ∈ ranges res.
Proof.
  intros Hwf Hranges Hl1 Hd Hrun d' Hd'.
  destruct (applyEffect_returns effect set s s' res Hwf Hrun)
    as [(Hnone & _ & _)|(l1' & d0 & l2' & Hranges' & Hl1' & Hd0 & _ & Hperm)].
  - rewrite Hranges in Hnone. apply Forall_app in Hnone as [_ Hnone].
    apply Forall_cons in Hnone as [Hnone _]. congruence.
  - rewrite Hranges in Hranges'.
    destruct (first_touching_unique effect _ _ _ _ _ _ Hranges' Hl1 Hd Hl1' Hd0)
      as (<- & <- & <-).
    rewrite Hperm. apply elem_of_app. by right.
Qed.

(** C6, as the code has it, for decorations and an effect range that lie
    in the document: when the first decoration within the bounds of the
    effect (in the order of the filter pass: layer by layer, each layer
    from its start) is by the user of the effect and adjacent to the effect
    range, the update replaces it by one decoration of that user from the
    smaller of the two starts to the greater of the two ends, and keeps
    every other decoration.  And whatever the first decoration within the
    bounds is, whenever the update returns every decoration but that first
    one is in the set it returns, as it was: a decoration of the user of
    the effect that is adjacent to the effect range, but not the first one
    within the bounds, is left unchanged. *)
Theorem update_merges_first_adjacent
    (ds : DecorationSet) (tr : Transaction ChangeSet) (effect : AuthorshipUpdate)
    (l1 : list Range) (d : Range) (l2 : list Range) (s : State) :
  wf_set (RangeSet_map ds (changes tr)) →
  setInDocument (RangeSet_map ds (changes tr)) →
  effectInDocument effect →
  authorshipUpdates tr = [effect] →
  upd_from effect ≤ upd_to effect →
  ranges (RangeSet_map ds (changes tr)) = l1 ++ d :: l2 →
  Forall (λ r, touches effect r = false) l1 →
  (userOf d = userId effect →
   adjacent effect d →
   ∃ s' res,
     update ds tr s = (s', inr res)
     ∧ ranges res
       ≡ₚ markOf (colorSet s) (Z.min (from d) (upd_from effect))
                 (Z.max (to d) (upd_to effect)) (userId effect)
          :: l1 ++ l2)
  ∧ (touches effect d = true →
     ∀ s' res,
       update ds tr s = (s', inr res) →
       ∀ d', d' ∈ l1 ++ l2 → d' ∈ ranges res).
Proof.
  intros Hwf _ _ Hone He Hranges Hl1. split.
  - intros Huser Hadj.
    destruct (applyEffect_merges_adjacent effect _ l1 d l2 s Hwf He Hranges Hl1
                Huser Hadj) as (s' & res & Hrun & Hperm).
    exists s', res. split; [|exact Hperm].
    rewrite (update_single ds tr effect s Hone). exact Hrun.
  - intros Hd s' res Hrun d' Hd'.
    rewrite (update_single ds tr effect s Hone) in Hrun.
    by apply (applyEffect_keeps_others effect _ l1 d l2 s s' res Hwf Hranges
                Hl1 Hd Hrun).
Qed.

(** C7, as the code has it, for decorations and an effect range that lie
    in the document: when the first decoration within the bounds of the
    effect is by another user and overlaps the effect range, the update
    replaces it by up to three decorations: what of it lies before the
    effect (if anything), the effect range for the user of the effect, and
    what of it lies after the effect (if anything); every other decoration
    is kept.  And whatever the first decoration within the bounds is,
    whenever the update returns every decoration but that first one is in
    the set it returns, as it was: a decoration of another user that the
    effect range overlaps, but that is not the first one within the bounds,
    is left unchanged. *)
Theorem update_splits_first_overlapped
    (ds : DecorationSet) (tr : Transaction ChangeSet) (effect : AuthorshipUpdate)
    (l1 : list Range) (d : Range) (l2 : list Range) (s : State) :
  wf_set (RangeSet_map ds (changes tr)) →
  setInDocument (RangeSet_map ds (changes tr)) →
  effectInDocument effect →
  authorshipUpdates tr = [effect] →
  ranges (RangeSet_map ds (changes tr)) = l1 ++ d :: l2 →
  Forall (λ r, touches effect r = false) l1 →
  (userOf d ≠ userId effect →
   overlaps effect d →
   ∃ s' res marks,
     update ds tr s = (s', inr res)
     ∧ ranges res ≡ₚ marks ++ l1 ++ l2
     ∧ span <$> marks
       = (if bool_decide (from d < upd_from effect)
          then [(from d, upd_from effect, userOf d)] else [])
         ++ [(upd_from effect, upd_to effect, userId effect)]
         ++ (if bool_decide (upd_to effect < to d)
             then [(upd_to effect, to d, userOf d)] else []))
  ∧ (touches effect d = true →
     ∀ s' res,
       update ds tr s = (s', inr res) →
       ∀ d', d' ∈ l1 ++ l2 → d' ∈ ranges res).
Proof.
  intros Hwf _ _ Hone Hranges Hl1. split.
  - intros Huser Hov.
    destruct (overlaps_touches _ _ Hov) as [Hd He].
    assert (Hrepl : replacement effect d
                    = (if bool_decide (from d < upd_from effect)
                       then [(from d, upd_from effect, userOf d)] else [])
                      ++ [(upd_from effect, upd_to effect, userId effect)]
                      ++ (if bool_decide (upd_to effect < to d)
                          then [(upd_to effect, to d, userOf d)] else [])).
    { unfold replacement. by rewrite bool_decide_eq_false_2 by done. }
    destruct (applyEffect_handles effect _ l1 d l2 s Hwf Hranges Hl1 Hd)
      as (res & Hrun & Hperm & _).
    { rewrite Hrepl. unfold nonempty_span.
      by_cases (from d < upd_from effect); by_cases (upd_to effect < to d);
        cbn [app]; repeat (apply Forall_cons_2; [cbn; lia|]); apply Forall_nil_2. }
    eexists _, res, _. split_and!; [|exact Hperm|].
    + rewrite (update_single ds tr effect s Hone). exact Hrun.
    + by rewrite span_marksOf.
  - intros Hd s' res Hrun d' Hd'.
    rewrite (update_single ds tr effect s Hone) in Hrun.
    by apply (applyEffect_keeps_others effect _ l1 d l2 s s' res Hwf Hranges
                Hl1 Hd Hrun).
Qed.

(** ** Well-formed sets stay well-formed *)

Lemma applyEffect_wf effect set s s' res :
  wf_set set → applyEffect set effect s = (s', inr res) → wf_set res.
Proof.
  intros Hwf Hrun.
  destruct (first_touching effect (ranges set))
    as [Hnone|(l1 & d & l2 & Hranges & Hl1 & Hd)].
  - rewrite (applyEffect_untouched effect set s Hwf Hnone) in Hrun.
    case_bool_decide as He; [|discriminate Hrun].
    destruct (RangeSet_update_add set
                [markOf (colorSet s) (upd_from effect) (upd_to effect)
                        (userId effect)]
                (pushed (fresh s) (upd_from effect) (upd_to effect)
                        (userId effect)))
      as (res' & Hadd & _ & Hwfres); [by apply wf_set_fromSorted|by cbn|].
    rewrite Hadd in Hrun. injection Hrun as _ <-.
    apply Hwfres; [done|]. by repeat constructor.
  - destruct (filterDecoration effect (from d) (to d) (value d) (fresh s))
      as [s1 [e|keep]] eqn:Hfilter.
    + rewrite (applyEffect_throws effect set l1 d l2 s s1 e) in Hrun by done.
      discriminate Hrun.
    + pose proof (filterDecoration_returns effect d (fresh s) s1 keep eq_refl
                    Hfilter) as Hspans.
      destruct (applyEffect_handles effect set l1 d l2 s)
        as (res' & Hrun' & _ & Hwfres); try done.
      rewrite Hrun' in Hrun. by injection Hrun as _ <-.
Qed.




Lemma applyEffect_handles_at_most_one effect set s s' res :
  wf_set set →
  applyEffect set effect s = (s', inr res) →
  handles_at_most_one effect set res.
Proof.
  intros Hwf Hrun.
  destruct (applyEffect_returns effect _ s s' res Hwf Hrun)
    as [(_ & _ & Hperm)|(l1 & d & l2 & Hranges & Hl1 & Hd & _ & Hperm)].
  - eexists [_], _. split; [exact Hperm|by left].
  - eexists _, _. split; [exact Hperm|]. right. exists l1, d, l2.
    split_and!; try done. apply span_marksOf.
Qed.

Lemma forEach_effect_by_effect effects : ∀ set s s' res,
  wf_set set →
  forEach effects set s = (s', inr res) →
  effect_by_effect effects set res.
Proof.
  induction effects as [|effect effects IH]; intros set s s' res Hwf;
    cbn [Authorship.forEach].
  - intros [= _ <-]. constructor.
  - unfold bind. destruct (applyEffect set effect s) as [s1 [e|set1]] eqn:Hstep;
      [done|].
    intros Hrest. econstructor.
    + by eapply applyEffect_handles_at_most_one.
    + eapply IH; [|exact Hrest]. by eapply applyEffect_wf.
Qed.

Lemma forEach_total effects : ∀ set s,
  wf_set set →
  Forall (λ effect, upd_from effect < upd_to effect) effects →
  ∃ s' res, forEach effects set s = (s', inr res).
Proof.
  induction effects as [|effect effects IH]; intros set s Hwf Hall;
    cbn [Authorship.forEach].
  - by eexists _, _.
  - apply Forall_cons in Hall as [He Hall].
    destruct (applyEffect_total effect set s Hwf He) as (s1 & set1 & Hstep).
    unfold bind. rewrite Hstep. apply IH; [|done]. by eapply applyEffect_wf.
Qed.

(** C9, as the code has it, for decorations and effect ranges that lie in
    the document: the update of the state field handles the
    authorship updates of a transaction one after the other, and for each of
    them removes or replaces at most one of the decorations it finds: the
    first one within the bounds of the effect, layer by layer; all
    decorations after that one stay, whether or not they touch the effect
    range.  So a transaction with one authorship update removes or replaces
    at most one of the decorations there were.  The update returns when no
    effect range is empty.  And when two decorations of the user of the
    effect are both adjacent to the effect range, the one the filter meets
    first is merged with the effect and the other one stays as it is: two
    decorations of that user. *)
Theorem update_handles_at_most_one
    (ds : DecorationSet) (tr : Transaction ChangeSet) (s : State) :
  wf_set (RangeSet_map ds (changes tr)) →
  setInDocument (RangeSet_map ds (changes tr)) →
  Forall effectInDocument (authorshipUpdates tr) →
  (∀ s' res, update ds tr s = (s', inr res) →
     effect_by_effect (authorshipUpdates tr) (RangeSet_map ds (changes tr)) res)
  ∧ (Forall (λ effect, upd_from effect < upd_to effect) (authorshipUpdates tr) →
     ∃ s' res, update ds tr s = (s', inr res))
  ∧ (∀ effect, authorshipUpdates tr = [effect] →
       (∀ s' res, update ds tr s = (s', inr res) →
          handles_at_most_one effect (RangeSet_map ds (changes tr)) res)
       ∧ (∀ l1 d l2 d',
            ranges (RangeSet_map ds (changes tr)) = l1 ++ d :: l2 →
            Forall (λ r, touches effect r = false) l1 →
            userOf d = userId effect → adjacent effect d →
            d' ∈ l2 → userOf d' = userId effect → adjacent effect d' →
            upd_from effect ≤ upd_to effect →
            ∃ s' res,
              update ds tr s = (s', inr res)
              ∧ ranges res
                ≡ₚ markOf (colorSet s) (Z.min (from d) (upd_from effect))
                          (Z.max (to d) (upd_to effect)) (userId effect)
                   :: l1 ++ l2
              ∧ d' ∈ ranges res)).
Proof.
  intros Hwf _ _. split_and!.
  - intros s' res. unfold Authorship.update, authorshipUpdates.
    case_bool_decide as Hlen.
    + apply nil_length_inv in Hlen. rewrite Hlen. intros [= _ <-]. constructor.
    + by apply forEach_effect_by_effect.
  - intros Hall. unfold Authorship.update. unfold authorshipUpdates in Hall.
    case_bool_decide; [by eexists _, _|]. by apply forEach_total.
  - intros effect Hone. split.
    + intros s' res Hrun. rewrite (update_single ds tr effect s Hone) in Hrun.
      by eapply applyEffect_handles_at_most_one.
    + intros l1 d l2 d' Hranges Hl1 Hu Hadj Hd' Hu' Hadj' He.
      destruct (applyEffect_merges_adjacent effect _ l1 d l2 s Hwf He Hranges Hl1
                  Hu Hadj) as (s' & res & Hrun & Hperm).
      exists s', res. split_and!; [|done|].
      * rewrite (update_single ds tr effect s Hone). exact Hrun.
      * rewrite Hperm. right. apply elem_of_app. by right.
Qed.

(** ** C10: the flag [localUpdate] *)

Lemma applyEffect_without_localUpdate set effect :
  applyEffect set effect = applyEffect set (without_localUpdate effect).
Proof. reflexivity. Qed.

Lemma sameButLocalUpdate_updates (effects1 effects2 : list StateEffect) :
  Forall2 sameButLocalUpdate effects1 effects2 →
  without_localUpdate <$> omap is_authorshipsUpdateEffect effects1
  = without_localUpdate <$> omap is_authorshipsUpdateEffect effects2.
Proof.
  induction 1 as [|e1 e2 l1 l2 Hsame _ IH]; [done|].
  destruct e1 as [v1|], e2 as [v2|]; cbn in Hsame; try done; cbn.
  - destruct Hsame as (Hfrom & Hto & Huser).
    unfold without_localUpdate at 1 3. by rewrite Hfrom, Hto, Huser, IH.
Qed.

Lemma forEach_without_localUpdate effects : ∀ set s,
  forEach effects set s = forEach (without_localUpdate <$> effects) set s.
Proof.
  induction effects as [|effect effects IH]; intros set s; [done|].
  cbn [Authorship.forEach fmap list_fmap].
  rewrite applyEffect_without_localUpdate. unfold bind.
  destruct (applyEffect set (without_localUpdate effect) s) as [s' [e|set']];
    [done|apply IH].
Qed.

(** C10: two transactions with the same changes whose effects differ at
    most in the [localUpdate] of their authorship updates take the state
    field from a decoration set to the same decoration set (and leave the
    same colour set; if one throws, so does the other). *)
Theorem update_ignores_localUpdate
    (ds : DecorationSet) (tr1 tr2 : Transaction ChangeSet) (s : State) :
  changes tr1 = changes tr2 →
  Forall2 sameButLocalUpdate (effects tr1) (effects tr2) →
  update ds tr1 s = update ds tr2 s.
Proof.
  intros Hchanges Hsame. unfold Authorship.update. rewrite Hchanges.
  pose proof (sameButLocalUpdate_updates _ _ Hsame) as Heq.
  assert (Hlen : length (omap is_authorshipsUpdateEffect (effects tr1))
                 = length (omap is_authorshipsUpdateEffect (effects tr2))).
  { by rewrite <- (length_fmap without_localUpdate), Heq, length_fmap. }
  rewrite Hlen. case_bool_decide; [done|].
  rewrite (forEach_without_localUpdate
             (omap is_authorshipsUpdateEffect (effects tr1))).
  rewrite (forEach_without_localUpdate
             (omap is_authorshipsUpdateEffect (effects tr2))).
  by rewrite Heq.
Qed.


End Field.

(** ** The theorems at work *)

Lemma wf_set_example (layer : Layer) :
  layer ≠ [] → ordered layer → Forall (λ r, from r < to r) layer →
  wf_set [layer].
Proof. intros. by repeat constructor. Qed.

Lemma setInDocument_example (layer : Layer) :
  Forall (λ r, 0 ≤ from r ∧ to r < Far ∧ from r ≤ to r) layer →
  setInDocument [layer].
Proof.
  intros Hall. unfold setInDocument, ranges. cbn [concat]. rewrite app_nil_r.
  eapply Forall_impl; [exact Hall|].
  intros r (? & ? & ?). unfold rangeInDocument, inDocument. lia.
Qed.

(** A writes [5,7) right after A's own [0,5); A's own [7,10) follows,
    adjacent to the effect range as well: the first is merged, the second
    is left as it is. *)
Lemma update_merges_first_adjacent_witness :
  let dA := example_mark ["A"] 0 5 "A" in
  let dA' := example_mark ["A"] 7 10 "A" in
  ∃ s' res,
    example_update [[dA; dA']] (example_transaction [example_effect 5 7 "A"])
                   (example_state ["A"])
    = (s', inr res)
    ∧ ranges res ≡ₚ example_mark ["A"] 0 7 "A" :: [] ++ [dA']
    ∧ dA' ∈ ranges res.
Proof.
  cbn zeta.
  destruct (update_merges_first_adjacent example_highlight example_color
              example_map
              [[example_mark ["A"] 0 5 "A"; example_mark ["A"] 7 10 "A"]]
              (example_transaction [example_effect 5 7 "A"])
              (example_effect 5 7 "A")
              [] (example_mark ["A"] 0 5 "A")
              [example_mark ["A"] 7 10 "A"]
              (example_state ["A"]))
    as [Hmerged Hkept].
  - apply wf_set_example; [done| |].
    + cbn. repeat constructor; cbn; lia.
    + repeat constructor; cbn; lia.
  - apply setInDocument_example.
    repeat (apply Forall_cons_2; [vm_compute; intuition discriminate|]).
    apply Forall_nil_2.
  - vm_compute. intuition discriminate.
  - reflexivity.
  - cbn. lia.
  - reflexivity.
  - constructor.
  - destruct Hmerged as (s' & res & Hrun & Hperm).
    + vm_compute. reflexivity.
    + right. reflexivity.
    + exists s', res. split_and!; [exact Hrun|exact Hperm|].
      apply (Hkept eq_refl s' res Hrun). cbn. left.
Defined.

(** C6 as stated fails: B writes [5,7) between A's [0,5) and B's own
    [7,10).  The decoration [7,10) is B's and starts where the effect ends,
    but the filter meets A's decoration first and handles that one: B's
    decoration stays [7,10) and no decoration spans [5,10). *)
Lemma adjacent_decoration_not_merged :
  let dA := example_mark ["A"; "B"] 0 5 "A" in
  let dB := example_mark ["A"; "B"] 7 10 "B" in
  let effect := example_effect 5 7 "B" in
  let outcome :=
    example_update [[dA; dB]] (example_transaction [effect])
                   (example_state ["A"; "B"]) in
  wf_set [[dA; dB]]
  ∧ dB ∈ ranges [[dA; dB]]
  ∧ userOf dB = userId effect
  ∧ adjacent effect dB
  ∧ outcome.2 = inr [[dA; example_mark ["A"; "B"] 5 7 "B"; dB]]
  ∧ ¬ ∃ r, r ∈ [dA; example_mark ["A"; "B"] 5 7 "B"; dB]
           ∧ from r = Z.min (from dB) (upd_from effect)
           ∧ to r = Z.max (to dB) (upd_to effect).
Proof.
  cbn zeta. split_and!.
  - apply wf_set_example; [done| |]; repeat constructor; cbn; lia.
  - cbn. right. left.
  - vm_compute. reflexivity.
  - left. reflexivity.
  - vm_compute. reflexivity.
  - intros (r & Hr & Hfrom & Hto).
    repeat (apply elem_of_cons in Hr as [->|Hr]; [cbn in Hfrom, Hto; lia|]).
    by apply elem_of_nil in Hr.
Qed.

(** C writes [4,6) across the end of A's [0,5) and the start of B's
    [5,10): A's decoration is the first within the bounds and is split,
    B's decoration is left as it is. *)
Lemma update_splits_first_overlapped_witness :
  let dA := example_mark ["A"; "B"] 0 5 "A" in
  let dB := example_mark ["A"; "B"] 5 10 "B" in
  ∃ s' res marks,
    example_update [[dA; dB]] (example_transaction [example_effect 4 6 "C"])
                   (example_state ["A"; "B"])
    = (s', inr res)
    ∧ ranges res ≡ₚ marks ++ [] ++ [dB]
    ∧ span <$> marks = [(0, 4, "A")] ++ [(4, 6, "C")] ++ []
    ∧ dB ∈ ranges res.
Proof.
  cbn zeta.
  destruct (update_splits_first_overlapped example_highlight example_color
              example_map
              [[example_mark ["A"; "B"] 0 5 "A"; example_mark ["A"; "B"] 5 10 "B"]]
              (example_transaction [example_effect 4 6 "C"])
              (example_effect 4 6 "C")
              [] (example_mark ["A"; "B"] 0 5 "A")
              [example_mark ["A"; "B"] 5 10 "B"]
              (example_state ["A"; "B"]))
    as [Hsplit Hkept].
  - apply wf_set_example; [done| |]; repeat constructor; cbn; lia.
  - apply setInDocument_example.
    repeat (apply Forall_cons_2; [vm_compute; intuition discriminate|]).
    apply Forall_nil_2.
  - vm_compute. intuition discriminate.
  - reflexivity.
  - reflexivity.
  - constructor.
  - destruct Hsplit as (s' & res & marks & Hrun & Hperm & Hspans).
    + vm_compute. discriminate.
    + unfold overlaps. cbn. lia.
    + exists s', res, marks. split_and!; [exact Hrun|exact Hperm|exact Hspans|].
      apply (Hkept eq_refl s' res Hrun). cbn. left.
Defined.

(** C7 as stated fails: in the same transaction the effect of C overlaps
    B's decoration [5,10) too, at [5,6), but B's decoration is not the first
    within the bounds: it stays [5,10), whole, and overlaps the new
    decoration of C. *)
Lemma overlapped_decoration_not_split :
  let dA := example_mark ["A"; "B"] 0 5 "A" in
  let dB := example_mark ["A"; "B"] 5 10 "B" in
  let effect := example_effect 4 6 "C" in
  let outcome :=
    example_update [[dA; dB]] (example_transaction [effect])
                   (example_state ["A"; "B"]) in
  wf_set [[dA; dB]]
  ∧ dB ∈ ranges [[dA; dB]]
  ∧ userOf dB ≠ userId effect
  ∧ overlaps effect dB
  ∧ outcome.2
    = inr [[example_mark ["A"; "B"] 0 4 "A"; example_mark ["A"; "B"] 4 6 "C"];
           [dB]]
  ∧ dB ∈ ranges [[example_mark ["A"; "B"] 0 4 "A";
                  example_mark ["A"; "B"] 4 6 "C"]; [dB]]
  ∧ ¬ ∃ r, r ∈ ranges [[example_mark ["A"; "B"] 0 4 "A";
                        example_mark ["A"; "B"] 4 6 "C"]; [dB]]
           ∧ span r = (upd_to effect, to dB, userOf dB).
Proof.
  cbn zeta. split_and!.
  - apply wf_set_example; [done| |]; repeat constructor; cbn; lia.
  - cbn. right. left.
  - vm_compute. discriminate.
  - unfold overlaps. cbn. lia.
  - vm_compute. reflexivity.
  - cbn. right. right. left.
  - intros (r & Hr & Hspan). cbn in Hr.
    repeat (apply elem_of_cons in Hr as [->|Hr];
            [vm_compute in Hspan; discriminate Hspan|]).
    by apply elem_of_nil in Hr.
Qed.

(** A writes [5,7) between A's own [0,5) and [7,10): only one is merged. *)
Lemma update_handles_at_most_one_witness :
  let dA1 := example_mark ["A"] 0 5 "A" in
  let dA2 := example_mark ["A"] 7 10 "A" in
  ∃ s' res,
    example_update [[dA1; dA2]] (example_transaction [example_effect 5 7 "A"])
                   (example_state ["A"])
    = (s', inr res)
    ∧ ranges res ≡ₚ example_mark ["A"] 0 7 "A" :: [] ++ [dA2]
    ∧ dA2 ∈ ranges res.
Proof.
  cbn zeta.
  refine (proj2 (proj2 (proj2
    (update_handles_at_most_one example_highlight example_color example_map
       [[example_mark ["A"] 0 5 "A"; example_mark ["A"] 7 10 "A"]]
       (example_transaction [example_effect 5 7 "A"])
       (example_state ["A"]) _ _ _)) (example_effect 5 7 "A") _)
    [] (example_mark ["A"] 0 5 "A") [example_mark ["A"] 7 10 "A"]
    (example_mark ["A"] 7 10 "A") _ _ _ _ _ _ _ _).
  - apply wf_set_example; [done| |]; repeat constructor; cbn; lia.
  - apply setInDocument_example.
    repeat (apply Forall_cons_2; [vm_compute; intuition discriminate|]).
    apply Forall_nil_2.
  - apply Forall_cons_2; [vm_compute; intuition discriminate|apply Forall_nil_2].
  - reflexivity.
  - reflexivity.
  - constructor.
  - vm_compute. reflexivity.
  - right. reflexivity.
  - left.
  - vm_compute. reflexivity.
  - left. reflexivity.
  - cbn. lia.
Defined.

(** The same transaction run: the set ends with A's [0,7) and A's [7,10). *)
Example bridging_effect :
  (example_update [[example_mark ["A"] 0 5 "A"; example_mark ["A"] 7 10 "A"]]
                  (example_transaction [example_effect 5 7 "A"])
                  (example_state ["A"])).2
  = inr [[example_mark ["A"] 0 7 "A"; example_mark ["A"] 7 10 "A"]].
Proof. vm_compute. reflexivity. Qed.

(** The same with A's decoration reaching into the effect range, [0,6):
    A's decoration is split, B's adjacent decoration [7,10) stays. *)
Example adjacent_decoration_after_overlapped :
  (example_update [[example_mark ["A"; "B"] 0 6 "A"; example_mark ["A"; "B"] 7 10 "B"]]
                  (example_transaction [example_effect 5 7 "B"])
                  (example_state ["A"; "B"])).2
  = inr [[example_mark ["A"; "B"] 0 5 "A"; example_mark ["A"; "B"] 5 7 "B";
          example_mark ["A"; "B"] 7 10 "B"]].
Proof. vm_compute. reflexivity. Qed.

(** C9 as stated fails: the bound is a bound for each effect.  A
    transaction with two authorship updates of C, one inside A's [0,5) and
    one inside B's [10,15), replaces both decorations: neither is in the
    result. *)
Lemma two_effects_replace_two_decorations :
  let dA := example_mark ["A"; "B"] 0 5 "A" in
  let dB := example_mark ["A"; "B"] 10 15 "B" in
  let tr := example_transaction [example_effect 2 3 "C"; example_effect 12 13 "C"] in
  let res :=
    [[example_mark ["A"; "B"] 0 2 "A"; example_mark ["A"; "B"] 2 3 "C";
      example_mark ["A"; "B"] 3 5 "A"; example_mark ["A"; "B"] 10 12 "B";
      example_mark ["A"; "B"] 12 13 "C"; example_mark ["A"; "B"] 13 15 "B"]] in
  wf_set [[dA; dB]]
  ∧ authorshipUpdates tr ≠ []
  ∧ (example_update [[dA; dB]] tr (example_state ["A"; "B"])).2 = inr res
  ∧ dA ≠ dB
  ∧ dA ∈ ranges [[dA; dB]]
  ∧ dB ∈ ranges [[dA; dB]]
  ∧ (dA ∉ ranges res)
  ∧ (dB ∉ ranges res).
Proof.
  cbn zeta. split_and!.
  - apply wf_set_example; [done| |]; repeat constructor; cbn; lia.
  - discriminate.
  - vm_compute. reflexivity.
  - intros Heq. by apply (f_equal from) in Heq.
  - left.
  - right. left.
  - intros Hin. cbn in Hin.
    repeat (apply elem_of_cons in Hin as [Heq|Hin];
            [apply (f_equal (λ r, (from r, to r))) in Heq; cbn in Heq;
             discriminate Heq|]).
    by apply elem_of_nil in Hin.
  - intros Hin. cbn in Hin.
    repeat (apply elem_of_cons in Hin as [Heq|Hin];
            [apply (f_equal (λ r, (from r, to r))) in Heq; cbn in Heq;
             discriminate Heq|]).
    by apply elem_of_nil in Hin.
Qed.

(** An effect with an empty range where no decoration is: the mark of the
    effect cannot be made. *)
Example empty_effect_throws :
  (example_update [] (example_transaction [example_effect 5 5 "A"])
                  (example_state [])).2
  = inl (RangeError "Mark decorations may not be empty").
Proof. vm_compute. reflexivity. Qed.

(** A local and a remote update with the same range and user. *)
Lemma update_ignores_localUpdate_witness :
  let set := [[example_mark ["A"] 0 5 "A"]] in
  let effect localUpdate :=
    AuthorshipsUpdateEffect
      {| upd_from := 5; upd_to := 7; userId := "B"; localUpdate := localUpdate |} in
  example_update set {| changes := tt; effects := [effect true; OtherEffect] |}
                 (example_state ["A"])
  = example_update set {| changes := tt; effects := [effect false; OtherEffect] |}
                   (example_state ["A"]).
Proof.
  cbn zeta.
  apply (update_ignores_localUpdate example_highlight example_color example_map).
  - reflexivity.
  - repeat constructor.
Defined.

End AuthorshipTheory.

(* ===================================================================== *)
(** * Further theorems: the history slice *)
(* ===================================================================== *)

Module HistoryInvariants.
Import History.

Section Slice.

Context {HistoryEntry : Type}.
Variable identifier : HistoryEntry → string.

Abbreviation updateEntry := (updateEntry identifier).
Abbreviation removeEntry := (removeEntry identifier).

Lemma filter_other_fmap (noteId : string) (state : list HistoryEntry) :
  identifier <$> filter (λ entry, identifier entry ≠ noteId) state
  = filter (λ i, i ≠ noteId) (identifier <$> state).
Proof.
  induction state as [|entry rest IH]; [done|].
  rewrite fmap_cons, !filter_cons. cbn.
  destruct (decide (identifier entry ≠ noteId)); cbn; by rewrite IH.
Qed.

Lemma filter_other_absent (noteId : string) (state : list HistoryEntry) :
  filter (λ entry, identifier entry ≠ noteId) state = state
  ↔ noteId ∉ identifier <$> state.
Proof.
  induction state as [|entry rest IH].
  - split; [intros _; apply not_elem_of_nil | done].
  - rewrite filter_cons, fmap_cons, not_elem_of_cons.
    destruct (decide (identifier entry ≠ noteId)) as [Hne|He].
    + split.
      * intros [= Heq]. split; [done|]. by apply IH.
      * intros [_ Hrest]. f_equal. by apply IH.
    + split.
      * intros Heq. exfalso.
        assert (Hlen : length (filter (λ e, identifier e ≠ noteId) rest)
                       = S (length rest)) by (by rewrite Heq).
        pose proof (length_filter (λ e, identifier e ≠ noteId) rest). lia.
      * intros [Hne _]. destruct He. congruence.
Qed.

(** X1.  When the payload's entry carries the payload's note id, the
    state after [updateEntry] holds exactly one entry with that id, the
    new one, and identifiers that were all different stay all different. *)
Theorem updateEntry_keeps_identifiers_unique
    (state : HistoryState) (payload : UpdateEntryPayload) :
  identifier (newEntry payload) = upd_noteId payload →
  filter (λ entry, identifier entry = upd_noteId payload)
         (updateEntry state payload)
  = [newEntry payload]
  ∧ (NoDup (identifier <$> state) →
     NoDup (identifier <$> updateEntry state payload)).
Proof.
  intros Hid. unfold History.updateEntry. split.
  - rewrite filter_app.
    replace (filter (λ entry, identifier entry = upd_noteId payload)
               (filter (λ entry, identifier entry ≠ upd_noteId payload) state))
      with (@nil HistoryEntry).
    + rewrite filter_cons, decide_True by done. done.
    + symmetry. induction state as [|entry rest IH]; [done|].
      rewrite filter_cons.
      destruct (decide (identifier entry ≠ upd_noteId payload)); [|done].
      rewrite filter_cons, decide_False by done. done.
  - intros Hnd. rewrite fmap_app, filter_other_fmap. cbn.
    apply NoDup_app. split_and!.
    + by apply NoDup_filter.
    + intros i [Hne _]%list_elem_of_filter [->|[]%elem_of_nil]%elem_of_cons.
      congruence.
    + apply NoDup_singleton.
Qed.

(** X2.  [removeEntry] returns the state as it is exactly when no entry
    has the payload's note id; removing again changes nothing, and two
    removals give the same state in either order. *)
Theorem removeEntry_absent_idempotent_commutes
    (state : HistoryState) (payload payload' : RemoveEntryPayload) :
  (removeEntry state payload = state
   ↔ rem_noteId payload ∉ identifier <$> state)
  ∧ removeEntry (removeEntry state payload) payload = removeEntry state payload
  ∧ removeEntry (removeEntry state payload) payload'
    = removeEntry (removeEntry state payload') payload.
Proof.
  unfold History.removeEntry. split_and!.
  - apply filter_other_absent.
  - apply filter_other_absent. rewrite filter_other_fmap.
    intros [Hne _]%list_elem_of_filter. done.
  - rewrite !list_filter_filter. apply list_filter_iff. intros entry. tauto.
Qed.

(** X3.  Removing a note after [updateEntry] for that note gives what
    removing it from the state before gives, when the new entry carries the
    note id; when it carries another id, the new entry stays.  Likewise
    [updateEntry] with the same payload twice adds the entry only once in
    the first case, and twice in the second. *)
Theorem updateEntry_then_removeEntry_or_again
    (state : HistoryState) (payload : UpdateEntryPayload) :
  let removal := {| rem_noteId := upd_noteId payload |} in
  let left_behind :=
    if decide (identifier (newEntry payload) = upd_noteId payload)
    then [] else [newEntry payload] in
  removeEntry (updateEntry state payload) removal
  = removeEntry state removal ++ left_behind
  ∧ updateEntry (updateEntry state payload) payload
    = removeEntry state removal ++ left_behind ++ [newEntry payload].
Proof.
  cbn zeta. unfold History.updateEntry, History.removeEntry. cbn [rem_noteId].
  assert (Hagain :
    filter (λ entry, identifier entry ≠ upd_noteId payload)
      (filter (λ entry, identifier entry ≠ upd_noteId payload) state
       ++ [newEntry payload])
    = filter (λ entry, identifier entry ≠ upd_noteId payload) state
      ++ (if decide (identifier (newEntry payload) = upd_noteId payload)
          then [] else [newEntry payload])).
  { rewrite filter_app. f_equal.
    - rewrite list_filter_filter. apply list_filter_iff. intros entry. tauto.
    - rewrite filter_cons.
      destruct (decide (identifier (newEntry payload) = upd_noteId payload));
        [by rewrite decide_False by tauto | by rewrite decide_True by done]. }
  split; [exact Hagain|].
  etrans; [exact (f_equal (λ l, l ++ [newEntry payload]) Hagain)|].
  by rewrite <- app_assoc.
Qed.

End Slice.

Lemma updateEntry_keeps_identifiers_unique_witness :
  let state := [("a", 1); ("b", 2)] in
  let payload := {| upd_noteId := "a"; newEntry := ("a", 3) |} in
  filter (λ entry : string * Z, entry.1 = "a") (History.updateEntry fst state payload)
  = [("a", 3)]
  ∧ NoDup (fst <$> History.updateEntry fst state payload).
Proof.
  cbn zeta.
  destruct (updateEntry_keeps_identifiers_unique fst
              [("a", 1); ("b", 2)]
              {| upd_noteId := "a"; newEntry := ("a", 3) |} eq_refl)
    as [Hone Hunique].
  split; [exact Hone|]. apply Hunique.
  apply (bool_decide_unpack _). vm_compute. reflexivity.
Defined.

End HistoryInvariants.

(* ===================================================================== *)
(** * Theorems: the helpers of the permission test-suite *)
(* ===================================================================== *)

Module PermissionsSuiteTheory.
Import Permissions PermissionsSuite.

Section Permutator.

Context {T : Type}.

(** One run of the loop of [permute] over the indices [indices], given
    what the nested calls add. *)
Lemma permute_loop_elem (n : nat) (arr memo : list T) :
  (∀ (arr' memo' : list T) results' x,
     length arr' = n →
     x ∈ permute n arr' memo' results'
     ↔ x ∈ results' ∨ (arr' ≠ [] ∧ ∃ p, p ≡ₚ arr' ∧ x = memo' ++ p)) →
  length arr = S n →
  ∀ indices results x,
    x ∈ foldl
          (λ results i,
             match arr !! i with
             | None => results
             | Some cur =>
                 permute n (delete i arr) (memo ++ [cur])
                   (if bool_decide (length (delete i arr) = 0%nat)
                    then results ++ [memo ++ [cur]]
                    else results)
             end)
          results indices
    ↔ x ∈ results
      ∨ ∃ i cur p, i ∈ indices ∧ arr !! i = Some cur
                   ∧ p ≡ₚ delete i arr ∧ x = memo ++ cur :: p.
Proof.
  intros IH Hlen indices.
  induction indices as [|i indices IHi]; intros results x.
  - cbn. split; [by left|]. intros [H|(i & cur & p & []%elem_of_nil & _)]. done.
  - cbn [foldl]. rewrite IHi. clear IHi.
    destruct (arr !! i) as [cur|] eqn:Hi.
    + assert (Hlen' : length (delete i arr) = n).
      { rewrite length_delete by eauto. lia. }
      rewrite IH by done. split.
      * intros [[Hres|(Hne & p & Hp & ->)]|(i' & cur' & p & Hin & H')].
        -- case_bool_decide as Hz.
           ++ apply elem_of_app in Hres as [Hres|Hres%list_elem_of_singleton];
                [by left|]. right. exists i, cur, [].
              split_and!; [left | done | | done].
              symmetry. apply Permutation_nil_r. by apply nil_length_inv.
           ++ by left.
        -- right. exists i, cur, p. rewrite <- app_assoc.
           split_and!; [left | done..].
        -- right. exists i', cur', p. split; [by right | done].
      * intros [Hres|(i' & cur' & p & Hin & Hi' & Hp & ->)].
        -- left. left. case_bool_decide; [apply elem_of_app|]; eauto.
        -- apply elem_of_cons in Hin as [->|Hin].
           ++ left. rewrite Hi in Hi'. injection Hi' as <-.
              case_bool_decide as Hz.
              ** left. apply nil_length_inv in Hz. rewrite Hz in Hp.
                 apply Permutation_nil_r in Hp as ->.
                 apply elem_of_app. right. by apply list_elem_of_singleton.
              ** right. split; [intros Hnil; by rewrite Hnil in Hz|].
                 exists p. by rewrite <- app_assoc.
           ++ right. exists i', cur', p. done.
    + split.
      * intros [Hres|(i' & cur' & p & Hin & H')]; [by left|].
        right. exists i', cur', p. split; [by right | done].
      * intros [Hres|(i' & cur' & p & Hin & Hi' & H')]; [by left|].
        apply elem_of_cons in Hin as [->|Hin]; [congruence|].
        right. by exists i', cur', p.
Qed.

Lemma permute_elem (n : nat) : ∀ (arr memo : list T) results x,
  length arr = n →
  x ∈ permute n arr memo results
  ↔ x ∈ results ∨ (arr ≠ [] ∧ ∃ p, p ≡ₚ arr ∧ x = memo ++ p).
Proof.
  induction n as [|n IH]; intros arr memo results x Hlen.
  - apply nil_length_inv in Hlen as ->. cbn. split; [by left|].
    intros [H|[H _]]; done.
  - cbn [permute]. rewrite (permute_loop_elem n arr memo IH Hlen).
    assert (Hne : arr ≠ []) by (by intros ->).
    split; (intros [Hres|H]; [by left|right]).
    + destruct H as (i & cur & p & _ & Hi & Hp & ->).
      split; [done|]. exists (cur :: p). split; [|done].
      rewrite Hp. symmetry. by apply delete_Permutation.
    + destruct H as (_ & q & Hq & ->).
      destruct q as [|cur p].
      { apply Permutation_nil_l in Hq. done. }
      assert (Hcur : cur ∈ arr) by (rewrite <- Hq; left).
      apply list_elem_of_lookup in Hcur as [i Hi].
      exists i, cur, p. split_and!; [|done| |done].
      * apply elem_of_seq. apply lookup_lt_Some in Hi. lia.
      * apply (Permutation_cons_inv (a := cur)).
        rewrite Hq. by apply delete_Permutation.
Qed.

Lemma permute_loop_length (n : nat) (arr memo : list T) :
  (∀ (arr' memo' : list T) results',
     length arr' = n →
     length (permute n arr' memo' results')
     = (length results' + match n with O => 0 | _ => fact n end)%nat) →
  length arr = S n →
  ∀ indices results,
    Forall (λ i, (i < length arr)%nat) indices →
    length
      (foldl
         (λ results i,
            match arr !! i with
            | None => results
            | Some cur =>
                permute n (delete i arr) (memo ++ [cur])
                  (if bool_decide (length (delete i arr) = 0%nat)
                   then results ++ [memo ++ [cur]]
                   else results)
            end)
         results indices)
    = (length results + length indices * fact n)%nat.
Proof.
  intros IH Hlen indices.
  induction indices as [|i indices IHi]; intros results Hin.
  - cbn. lia.
  - apply Forall_cons in Hin as [Hi Hin].
    cbn [foldl]. rewrite IHi by done. clear IHi.
    apply lookup_lt_is_Some_2 in Hi as [cur Hi]. rewrite Hi.
    assert (Hlen' : length (delete i arr) = n).
    { rewrite length_delete by eauto. lia. }
    rewrite IH by done. rewrite Hlen'.
    destruct n as [|n].
    + rewrite bool_decide_eq_true_2 by done. rewrite length_app. cbn. lia.
    + rewrite bool_decide_eq_false_2 by done. cbn [length]. lia.
Qed.

Lemma permute_length (n : nat) : ∀ (arr memo : list T) results,
  length arr = n →
  length (permute n arr memo results)
  = (length results + match n with O => 0 | _ => fact n end)%nat.
Proof.
  induction n as [|n IH]; intros arr memo results Hlen.
  - cbn. lia.
  - cbn [permute].
    rewrite (permute_loop_length n arr memo IH Hlen).
    + rewrite length_seq, Hlen. cbn [fact]. lia.
    + apply Forall_forall. intros i Hi%elem_of_seq. lia.
Qed.

Lemma permutator_elem (inputArr x : list T) :
  x ∈ permutator inputArr ↔ inputArr ≠ [] ∧ x ≡ₚ inputArr.
Proof.
  unfold permutator. rewrite permute_elem by done. split.
  - intros [[]%elem_of_nil|(Hne & p & Hp & ->)]. done.
  - intros [Hne Hx]. right. split; [done|]. by exists x.
Qed.

(** X4.  The arrays [permutator] returns for a non-empty array are
    exactly its permutations: each result is a reordering of the input,
    and every reordering of the input is among the results.  For the
    empty array it returns no array at all. *)
Theorem permutator_gives_the_permutations (inputArr x : list T) :
  x ∈ permutator inputArr ↔ inputArr ≠ [] ∧ x ≡ₚ inputArr.
Proof.
  unfold permutator. rewrite permute_elem by done. split.
  - intros [Hnone|(Hne & p & Hp & ->)]; [by apply elem_of_nil in Hnone|].
    done.
  - intros [Hne Hx]. right. split; [done|]. by exists x.
Qed.

(** X5.  [permutator] returns the factorial of the length of its input
    many arrays when the input is not empty, and none when it is: not the
    one empty arrangement that the factorial of zero counts. *)
Theorem permutator_length (inputArr : list T) :
  length (permutator inputArr)
  = match inputArr with
    | [] => 0%nat
    | _ => fact (length inputArr)
    end.
Proof.
  unfold permutator. rewrite permute_length by done.
  destruct inputArr; cbn [length]; lia.
Qed.

End Permutator.

(** X6.  The tests [permuteNoteGroupPermissions] gives are the
    combinations with at least one grant, each in every order of its
    grants and with its own expected answers; a combination without any
    grant gives no test, and the combinations built for every default level
    include that one. *)
Theorem permuteNoteGroupPermissions_spec
    (noteGroupPermissions : list NoteGroupPermissionWithResultForUser)
    (test : NoteGroupPermissionWithResultForUser) :
  (test ∈ permuteNoteGroupPermissions noteGroupPermissions
   ↔ ∃ permission,
       permission ∈ noteGroupPermissions
       ∧ permissions permission ≠ []
       ∧ permissions test ≡ₚ permissions permission
       ∧ allowsRead test = allowsRead permission
       ∧ allowsWrite test = allowsWrite permission)
  ∧ (test ∈ permuteNoteGroupPermissions noteGroupPermissions →
     permissions test ≠ [])
  ∧ ∀ level, ∃ permission,
      permission ∈ createNoteGroupPermissionsCombinations level
      ∧ permissions permission = [].
Proof.
  assert (Hiff :
    test ∈ permuteNoteGroupPermissions noteGroupPermissions
    ↔ ∃ permission,
        permission ∈ noteGroupPermissions
        ∧ permissions permission ≠ []
        ∧ permissions test ≡ₚ permissions permission
        ∧ allowsRead test = allowsRead permission
        ∧ allowsWrite test = allowsWrite permission).
  { unfold permuteNoteGroupPermissions. rewrite list_elem_of_bind. split.
    - intros (permission & Htest & Hin).
      apply list_elem_of_bind in Htest as (permutation & Htest & Hperm).
      apply list_elem_of_singleton in Htest as ->.
      apply permutator_elem in Hperm as [Hne Hperm].
      by exists permission.
    - intros (permission & Hin & Hne & Hperm & Hr & Hw).
      exists permission. split; [|done].
      apply list_elem_of_bind. exists (permissions test). split.
      + apply list_elem_of_singleton. destruct test; cbn in *. congruence.
      + by apply permutator_elem. }
  split_and!; [done | |].
  - intros (permission & _ & Hne & Hperm & _)%Hiff Hnil.
    rewrite Hnil in Hperm. symmetry in Hperm.
    by apply Permutation_nil_r in Hperm.
  - intros level.
    exists (combination level None None None None None). split; [|done].
    apply (list_elem_of_lookup_2 _ 431). by destruct level.
Qed.

(** X7.  Whatever the five choices and the default level, a combination
    lists the grants chosen and no others, expects no write access without
    read access, and expects no access at all when no grant is chosen. *)
Theorem combination_expectations (level : DefaultAccessLevel)
    (group0 group1 group2 group3 group4 : option NoteGroupPermission) :
  let permission := combination level group0 group1 group2 group3 group4 in
  permissions permission = omap (λ group, group) [group0; group1; group2; group3; group4]
  ∧ (allowsWrite permission = true → allowsRead permission = true)
  ∧ (permissions permission = [] →
     allowsRead permission = false ∧ allowsWrite permission = false).
Proof.
  destruct group0, group1, group2 as [[? []]|], group3 as [[? []]|], group4,
    level; cbn; split_and!; done.
Qed.

End PermissionsSuiteTheory.

(* ===================================================================== *)
(** * Theorems: the token check of the Gist export dialogue *)
(* ===================================================================== *)

Module GistExportTheory.
Import GistExport.

Lemma startsWith_prefix (searchString : JsString) : ∀ s,
  startsWith s searchString = true ↔ ∃ rest, s = searchString ++ rest.
Proof.
  induction searchString as [|c searchString IH]; intros s.
  - split; [intros _; by exists s | by destruct s].
  - destruct s as [|c' s]; cbn [startsWith].
    + split; [done | by intros [rest ?]].
    + rewrite andb_true_iff, bool_decide_eq_true, IH. split.
      * intros [-> [rest ->]]. by exists rest.
      * intros [rest [= -> ->]]. eauto.
Qed.

Lemma ghTokenFormatValid_true (ghToken : JsString) :
  ghTokenFormatValid ghToken = true
  ↔ (∃ rest, ghToken = codeUnits "ghp_" ++ rest ∧ length rest = 36%nat)
    ∨ (∃ rest, ghToken = codeUnits "github_pat_" ++ rest
               ∧ length rest = 82%nat).
Proof.
  unfold ghTokenFormatValid.
  rewrite orb_true_iff, !andb_true_iff, !bool_decide_eq_true,
    !startsWith_prefix.
  unfold GITHUB_CLASSIC_TOKEN_PREFIX, GITHUB_CLASSIC_TOKEN_LENGTH,
    GITHUB_SCOPED_TOKEN_PREFIX, GITHUB_SCOPED_TOKEN_LENGTH.
  split.
  - intros [[[rest ->] Hlen]|[[rest ->] Hlen]]; [left|right]; exists rest;
      (split; [done|]); rewrite length_app in Hlen; cbn in Hlen; lia.
  - intros [(rest & -> & Hlen)|(rest & -> & Hlen)]; [left|right];
      (split; [by exists rest|]); rewrite length_app; cbn; lia.
Qed.

(** X8.  The create button of the dialogue is disabled when the dialogue
    opens, and after the token field changes it is enabled exactly when the
    new token is [ghp_] followed by 36 code units or [github_pat_] followed
    by 82 code units, never both; ticking the public checkbox changes
    neither the token nor whether the button is disabled. *)
Theorem createDisabled_spec (s : ModalState) (value : JsString) :
  createDisabled initialState = true
  ∧ (createDisabled (onGhTokenChange value s) = false
     ↔ (∃ rest, value = codeUnits "ghp_" ++ rest ∧ length rest = 36%nat)
       ∨ (∃ rest, value = codeUnits "github_pat_" ++ rest
                  ∧ length rest = 82%nat))
  ∧ ¬ (startsWith value GITHUB_CLASSIC_TOKEN_PREFIX = true
       ∧ startsWith value GITHUB_SCOPED_TOKEN_PREFIX = true)
  ∧ createDisabled (onGistPublicChange s) = createDisabled s
  ∧ onGistPublicChange (onGistPublicChange s) = s.
Proof.
  split_and!.
  - done.
  - unfold createDisabled. cbn [onGhTokenChange ghToken].
    rewrite negb_false_iff. apply ghTokenFormatValid_true.
  - rewrite !startsWith_prefix. intros [[rest ->] [rest' Heq]].
    discriminate Heq.
  - done.
  - destruct s as [? ? []]; done.
Qed.

End GistExportTheory.

(* ===================================================================== *)
(** * Further theorems: the authorship state field *)
(* ===================================================================== *)

Module AuthorshipInvariants.
Import CodeMirror Authorship AuthorshipSpec AuthorshipCoverage.
Import CodeMirrorTheory AuthorshipTheory.

(** ** What a computation does to the state, whatever it returns *)

Section StateRelation.

Context {S : Type} (R : S → S → Prop) `{!PreOrder R}.

Lemma bind_rel {A B} (m : M S A) (k : A → M S B) :
  (∀ s, R s (m s).1) → (∀ a s, R s (k a s).1) → ∀ s, R s (bind m k s).1.
Proof.
  intros Hm Hk s. unfold bind. specialize (Hm s).
  destruct (m s) as [s' [e|a]]; [done|].
  etrans; [exact Hm | apply Hk].
Qed.

Lemma liftE_rel {A} (r : Exception + A) s : R s (liftE r s).1.
Proof. done. Qed.

Lemma update_layer_rel filter :
  (∀ c s, R s (keeps filter c s).1) →
  ∀ add cur acc (s : S), R s (update_layer filter add cur acc s).1.
Proof.
  intros Hkeeps.
  induction add as [|a add IHadd]; intros cur; induction cur as [|c cur IHcur];
    intros acc.
  - done.
  - rewrite update_layer_cursor_only.
    apply bind_rel; [apply Hkeeps|]. intros keep.
    apply bind_rel; [apply liftE_rel | apply IHcur].
  - rewrite update_layer_add_only.
    apply bind_rel; [apply liftE_rel | apply IHadd].
  - rewrite update_layer_both. case_bool_decide.
    + apply bind_rel; [apply liftE_rel | apply IHadd].
    + apply bind_rel; [apply Hkeeps|]. intros keep.
      apply bind_rel; [apply liftE_rel | apply IHcur].
Qed.

Lemma RangeSet_update_rel filter :
  (∀ c s, R s (keeps filter c s).1) →
  ∀ set add (s : S), R s (RangeSet_update filter add set s).1.
Proof.
  intros Hkeeps.
  induction set as [|layer next IH]; intros add s.
  - destruct add; done.
  - assert (Hgen : R s (bind (update_layer filter add layer ([], []))
             (λ acc, bind (RangeSet_update filter acc.2 next)
                (λ next', ret (match acc.1 with
                               | [] => next'
                               | _ => acc.1 :: next'
                               end))) s).1).
    { apply bind_rel; [apply update_layer_rel, Hkeeps|]. intros acc.
      apply bind_rel; [apply IH | done]. }
    cbn [RangeSet_update]. destruct add, filter; done.
Qed.

End StateRelation.

(** ** The colour set *)

Lemma continues_refl cs : continues cs cs.
Proof. done. Qed.

Lemma continues_trans cs1 cs2 cs3 :
  continues cs1 cs2 → continues cs2 cs3 → continues cs1 cs3.
Proof.
  intros [Hp1 Hn1] [Hp2 Hn2]. split; [by etrans | auto].
Qed.

Lemma continues_colorSet_preorder :
  PreOrder (λ s s' : State, continues (colorSet s) (colorSet s')).
Proof.
  split.
  - intros s. apply continues_refl.
  - intros s1 s2 s3. apply continues_trans.
Qed.

Lemma Set_add_continues u cs : continues cs (Set_add u cs).
Proof.
  unfold Set_add. case_bool_decide as Hin; [apply continues_refl|].
  split; [by apply prefix_app_r|].
  intros Hnd. apply NoDup_app. split_and!; [done| |apply NoDup_singleton].
  intros x Hx ->%list_elem_of_singleton. done.
Qed.

Lemma indexOf_lookup u (l : list string) :
  u ∈ l →
  ∃ i : nat, indexOf u l = Z.of_nat i ∧ l !! i = Some u
             ∧ ∀ j : nat, (j < i)%nat → l !! j ≠ Some u.
Proof.
  induction l as [|y l IH]; [by intros ?%elem_of_nil|].
  intros Hin. cbn [indexOf]. case_bool_decide as Hy.
  - exists 0%nat. subst y. split_and!; [done|done|]. intros j Hj. lia.
  - apply elem_of_cons in Hin as [->|Hin]; [done|].
    destruct (IH Hin) as (i & Hi & Hlook & Hfirst).
    exists (Datatypes.S i). rewrite Hi. split_and!.
    + pose proof (Nat2Z.is_nonneg i) as Hnonneg. rewrite Nat2Z.inj_succ.
      destruct (Z.of_nat i) as [|q|q]; lia.
    + done.
    + intros [|j] Hj; cbn; [congruence|]. apply Hfirst. lia.
Qed.

Lemma indexOf_app u (l k : list string) :
  u ∈ l → indexOf u (l ++ k) = indexOf u l.
Proof.
  induction l as [|y l IH]; [by intros ?%elem_of_nil|].
  intros Hin. cbn [indexOf app]. case_bool_decide as Hy; [done|].
  apply elem_of_cons in Hin as [->|Hin]; [done|]. by rewrite IH.
Qed.

Lemma elem_of_Set_add u cs : u ∈ Set_add u cs.
Proof.
  unfold Set_add. case_bool_decide; [done|].
  apply elem_of_app. right. by apply list_elem_of_singleton.
Qed.

Section Field.

Variable authorship_highlight : string.
Variable createRealtimeColorCssClass : Z → string.
Context {ChangeSet : Type}.
Variable RangeSet_map : DecorationSet → ChangeSet → DecorationSet.

Abbreviation createMark := (createMark authorship_highlight createRealtimeColorCssClass).
Abbreviation pushMark := (pushMark authorship_highlight createRealtimeColorCssClass).
Abbreviation filterDecoration :=
  (filterDecoration authorship_highlight createRealtimeColorCssClass).
Abbreviation applyEffect := (applyEffect authorship_highlight createRealtimeColorCssClass).
Abbreviation forEach := (forEach authorship_highlight createRealtimeColorCssClass).
Abbreviation update :=
  (update authorship_highlight createRealtimeColorCssClass RangeSet_map).
Abbreviation updates :=
  (updates authorship_highlight createRealtimeColorCssClass RangeSet_map).
Abbreviation markOf := (markOf authorship_highlight createRealtimeColorCssClass).
Abbreviation marksOf := (marksOf authorship_highlight createRealtimeColorCssClass).
Abbreviation grows :=
  (λ s s' : State, continues (colorSet s) (colorSet s')).

Lemma pushMark_grows from to u s : grows s (pushMark from to u s).1.
Proof.
  rewrite pushMark_eq. case_bool_decide; apply Set_add_continues.
Qed.

Lemma filterDecoration_grows effect from to value s :
  grows s (filterDecoration effect from to value s).1.
Proof.
  revert s. unfold Authorship.filterDecoration.
  apply (bind_rel grows (PreOrder0 := continues_colorSet_preorder));
    [intros s; apply continues_refl|].
  intros [|]; [intros s; apply continues_refl|].
  destruct (bool_decide _ && true).
  - destruct (bool_decide _ || bool_decide _);
      (apply (bind_rel grows (PreOrder0 := continues_colorSet_preorder));
       [intros s; apply pushMark_grows|]; intros _;
       apply (bind_rel grows (PreOrder0 := continues_colorSet_preorder));
       intros; apply continues_refl).
  - apply (bind_rel grows (PreOrder0 := continues_colorSet_preorder)).
    { intros s. case_bool_decide; [apply pushMark_grows|apply continues_refl]. }
    intros _.
    apply (bind_rel grows (PreOrder0 := continues_colorSet_preorder));
      [intros s; apply pushMark_grows|]. intros _.
    apply (bind_rel grows (PreOrder0 := continues_colorSet_preorder)).
    { intros s. case_bool_decide; [apply pushMark_grows|apply continues_refl]. }
    intros _.
    apply (bind_rel grows (PreOrder0 := continues_colorSet_preorder));
      intros; apply continues_refl.
Qed.

Lemma applyEffect_grows set effect s : grows s (applyEffect set effect s).1.
Proof.
  revert s. unfold Authorship.applyEffect.
  apply (bind_rel grows (PreOrder0 := continues_colorSet_preorder));
    [intros s; apply continues_refl|]. intros _.
  apply (bind_rel grows (PreOrder0 := continues_colorSet_preorder));
    [intros s; apply continues_refl|]. intros _.
  apply (bind_rel grows (PreOrder0 := continues_colorSet_preorder)).
  { intros s.
    apply (RangeSet_update_rel grows (PreOrder0 := continues_colorSet_preorder)).
    intros c s'. unfold keeps.
    destruct (bool_decide _ || bool_decide _);
      [apply continues_refl | apply filterDecoration_grows]. }
  intros set'.
  apply (bind_rel grows (PreOrder0 := continues_colorSet_preorder));
    [intros s; apply continues_refl|]. intros added.
  apply (bind_rel grows (PreOrder0 := continues_colorSet_preorder)).
  { intros s. case_bool_decide; [apply pushMark_grows|apply continues_refl]. }
  intros _.
  apply (bind_rel grows (PreOrder0 := continues_colorSet_preorder));
    [intros s; apply continues_refl|]. intros added'. intros s.
  apply (RangeSet_update_rel grows (PreOrder0 := continues_colorSet_preorder)).
  intros c s'. apply continues_refl.
Qed.

Lemma forEach_grows effects : ∀ set s, grows s (forEach effects set s).1.
Proof.
  induction effects as [|effect effects IH]; intros set.
  - intros s. apply continues_refl.
  - cbn [Authorship.forEach].
    apply (bind_rel grows (PreOrder0 := continues_colorSet_preorder));
      [apply applyEffect_grows | apply IH].
Qed.

Lemma update_grows ds (tr : Transaction ChangeSet) s :
  grows s (update ds tr s).1.
Proof.
  unfold Authorship.update. case_bool_decide;
    [apply continues_refl | apply forEach_grows].
Qed.

(** X9.  Along any run of transactions, whether or not one of them makes
    [update] throw, the colour set only grows at its end: a user who is in
    it keeps their place, hence their style index and colour, and no user
    comes to be in it twice. *)
Theorem updates_keep_colours
    (transactions : list (Transaction ChangeSet)) (ds : DecorationSet)
    (s : State) :
  let s' := (updates transactions ds s).1 in
  colorSet s `prefix_of` colorSet s'
  ∧ (NoDup (colorSet s) → NoDup (colorSet s'))
  ∧ ∀ u, u ∈ colorSet s →
         styleIndexOf u (colorSet s') = styleIndexOf u (colorSet s).
Proof.
  cbn zeta.
  assert (Hgrows : grows s (updates transactions ds s).1).
  { revert ds s. induction transactions as [|tr transactions IH]; intros ds.
    - intros s. apply continues_refl.
    - cbn [AuthorshipCoverage.updates].
      apply (bind_rel grows (PreOrder0 := continues_colorSet_preorder));
        [apply update_grows | apply IH]. }
  destruct Hgrows as [Hprefix Hnd]. split_and!; [done|done|].
  intros u Hu. destruct Hprefix as [k ->].
  unfold styleIndexOf. by rewrite indexOf_app.
Qed.

(** X10.  [createMark] puts the user into the colour set before it makes
    the mark, so also when the mark is refused; the style index it uses is
    the user's place in the colour set modulo seven, a number from 0 to 6;
    and it throws the range error of the library exactly when the range is
    empty or inverted. *)
Theorem createMark_spec (from to : Z) (u : string) (s : State) :
  ∃ i : nat,
    Set_add u (colorSet s) !! i = Some u
    ∧ (∀ j : nat, (j < i)%nat → Set_add u (colorSet s) !! j ≠ Some u)
    ∧ (0 ≤ Z.of_nat (i mod 7) < 7)
    ∧ createMark from to u s
      = (set_colorSet (Set_add u) s,
         if bool_decide (from < to)
         then inr {| from := from; to := to;
                     value :=
                       {| class :=
                            authorship_highlight +:+ " "
                            +:+ createRealtimeColorCssClass
                                  (Z.of_nat (i mod 7));
                          attributes := Some {[ data_user_id := u ]} |} |}
         else inl (RangeError "Mark decorations may not be empty")).
Proof.
  destruct (indexOf_lookup u (Set_add u (colorSet s)) (elem_of_Set_add u _))
    as (i & Hi & Hlook & Hfirst).
  exists i. split_and!; [done|done| | |].
  - lia.
  - pose proof (Nat.mod_upper_bound i 7). lia.
  - unfold Authorship.createMark, bind, modify, gets, liftE, mark_range.
    cbn [colorSet set_colorSet]. rewrite Hi.
    rewrite Z.rem_mod_nonneg by lia.
    rewrite (Nat2Z.inj_mod i 7).
    repeat case_bool_decide; try lia; reflexivity.
Qed.

(** ** Runs of transactions *)







(** ** The branches of one update *)

Ltac decided P :=
  destruct (decide P);
  [ rewrite ?(bool_decide_eq_true_2 P) by done
  | rewrite ?(bool_decide_eq_false_2 P) by done ].

(** X12.  Among decorations that lie in the document, an authorship
    update with a non-empty range in the document that no decoration
    touches adds one mark for its user over its range and keeps every
    decoration; on the empty set the result is the set of that one
    mark. *)
Theorem update_marks_unattributed_text
    (ds : DecorationSet) (tr : Transaction ChangeSet)
    (effect : AuthorshipUpdate) (s : State) :
  wf_set (RangeSet_map ds (changes tr)) →
  setInDocument (RangeSet_map ds (changes tr)) →
  effectInDocument effect →
  authorshipUpdates tr = [effect] →
  Forall (λ r, touches effect r = false)
         (ranges (RangeSet_map ds (changes tr))) →
  upd_from effect < upd_to effect →
  let mark :=
    markOf (colorSet s) (upd_from effect) (upd_to effect) (userId effect) in
  ∃ s' res,
    update ds tr s = (s', inr res)
    ∧ colorSet s' = Set_add (userId effect) (colorSet s)
    ∧ ranges res ≡ₚ mark :: ranges (RangeSet_map ds (changes tr))
    ∧ (RangeSet_map ds (changes tr) = none → res = [[mark]]).
Proof.
  intros Hwf _ _ Hsingle Hnone He. cbn zeta.
  rewrite (update_single _ _ _ ds tr effect s Hsingle).
  rewrite (applyEffect_untouched _ _ effect _ s Hwf Hnone).
  rewrite bool_decide_eq_true_2 by done.
  destruct (RangeSet_update_add (RangeSet_map ds (changes tr))
              [markOf (colorSet s) (upd_from effect) (upd_to effect)
                      (userId effect)]
              (AuthorshipSpec.pushed authorship_highlight
                 createRealtimeColorCssClass (fresh s)
                 (upd_from effect) (upd_to effect) (userId effect)))
    as (res & Hadd & Hperm & _); [by apply wf_set_fromSorted|by cbn|].
  eexists _, res. split_and!; [exact Hadd|done|done|].
  intros Hempty. rewrite Hempty in Hadd. by injection Hadd as <-.
Qed.

(** X13.  Among decorations that lie in the document: when the first
    decoration an authorship update touches is the user's own and not
    exactly adjacent to the update's range, the decoration is made anew
    over the same range and every other decoration is kept: the spans of
    the set are what they were, whatever the range of the update in the
    document, also where it reaches beyond the decoration or is empty. *)
Theorem update_recreates_own_decoration
    (ds : DecorationSet) (tr : Transaction ChangeSet)
    (effect : AuthorshipUpdate) (l1 : list Range) (d : Range)
    (l2 : list Range) (s : State) :
  wf_set (RangeSet_map ds (changes tr)) →
  setInDocument (RangeSet_map ds (changes tr)) →
  effectInDocument effect →
  authorshipUpdates tr = [effect] →
  ranges (RangeSet_map ds (changes tr)) = l1 ++ d :: l2 →
  Forall (λ r, touches effect r = false) l1 →
  touches effect d = true →
  userOf d = userId effect →
  ¬ adjacent effect d →
  ∃ s' res,
    update ds tr s = (s', inr res)
    ∧ ranges res
      ≡ₚ markOf (colorSet s) (from d) (to d) (userId effect) :: l1 ++ l2
    ∧ span <$> ranges res
      ≡ₚ span <$> ranges (RangeSet_map ds (changes tr)).
Proof.
  intros Hwf _ _ Hsingle Hranges Hl1 Hd Huser Hadj.
  rewrite (update_single _ _ _ ds tr effect s Hsingle).
  pose proof (wf_set_nonempty _ _ _ _ Hwf Hranges) as Hne.
  assert (Hrepl : replacement effect d = [(from d, to d, userId effect)]).
  { unfold replacement, adjacent in *.
    rewrite (bool_decide_eq_true_2 _ Huser).
    decided (from d = upd_to effect); [tauto|].
    decided (to d = upd_from effect); [tauto|].
    cbn [orb]. by rewrite Huser. }
  destruct (applyEffect_handles authorship_highlight
              createRealtimeColorCssClass effect
              (RangeSet_map ds (changes tr)) l1 d l2 s)
    as (res & Hrun & Hperm & _); try done.
  { rewrite Hrepl. by apply Forall_cons_2; [|apply Forall_nil_2]. }
  rewrite Hrepl in Hperm. cbn [AuthorshipSpec.marksOf app] in Hperm.
  eexists _, res. split_and!; [exact Hrun|exact Hperm|].
  rewrite Hperm, Hranges, fmap_cons, !fmap_app, fmap_cons, span_markOf.
  unfold span at 4. rewrite Huser. solve_Permutation.
Qed.



Lemma length_replacement effect d :
  (1 ≤ length (replacement effect d) ≤ 3)%nat.
Proof.
  unfold replacement.
  repeat first [case_bool_decide | destruct (_ || _)]; cbn; lia.
Qed.

Lemma applyEffect_count effect set s s' res :
  wf_set set →
  applyEffect set effect s = (s', inr res) →
  (length (ranges set) ≤ length (ranges res) ≤ length (ranges set) + 2)%nat.
Proof.
  intros Hwf Hrun.
  destruct (applyEffect_returns _ _ effect set s s' res Hwf Hrun)
    as [(_ & _ & Hperm)|(l1 & d & l2 & Hranges & _ & _ & _ & Hperm)].
  - rewrite Hperm. cbn [length]. lia.
  - rewrite Hperm, Hranges, !length_app. cbn [length].
    rewrite <- (length_fmap span (marksOf (colorSet s) (replacement effect d))).
    rewrite span_marksOf.
    pose proof (length_replacement effect d). lia.
Qed.

(** X15.  Among decorations and authorship updates that lie in the
    document: when [update] returns, the set has at least as many
    decorations as the mapped set had, and at most two more for each
    authorship update of the transaction.  (The number says nothing on
    which decorations they are: the one an update handles may give way to
    a single mark of another user.) *)
Theorem update_count_never_decreases
    (ds : DecorationSet) (tr : Transaction ChangeSet) (s s' : State)
    (res : DecorationSet) :
  wf_set (RangeSet_map ds (changes tr)) →
  setInDocument (RangeSet_map ds (changes tr)) →
  Forall effectInDocument (authorshipUpdates tr) →
  update ds tr s = (s', inr res) →
  (length (ranges (RangeSet_map ds (changes tr))) ≤ length (ranges res)
   ≤ length (ranges (RangeSet_map ds (changes tr)))
     + 2 * length (authorshipUpdates tr))%nat.
Proof.
  intros Hwf _ _. unfold Authorship.update, authorshipUpdates.
  case_bool_decide as Hempty.
  - intros [= _ <-]. lia.
  - clear Hempty. revert s. generalize dependent (RangeSet_map ds (changes tr)).
    induction (omap is_authorshipsUpdateEffect (effects tr))
      as [|effect effects IH]; intros set Hwf s.
    + intros [= _ <-]. cbn [length]. lia.
    + cbn [Authorship.forEach]. unfold bind.
      destruct (applyEffect set effect s) as [s1 [e|set1]] eqn:Happly; [done|].
      intros Hrun.
      pose proof (applyEffect_count effect set s s1 set1 Hwf Happly).
      pose proof (applyEffect_wf _ _ effect set s s1 set1 Hwf Happly) as Hwf1.
      specialize (IH set1 Hwf1 s1 Hrun). cbn [length]. lia.
Qed.

(** X16.  Among decorations that lie in the document: when the first
    decoration an authorship update with a non-empty range in the document
    touches is another user's, the marks that take its place follow
    one another without gap or overlap from the lower of the two starts to
    the higher of the two ends: the range of the update goes to its user,
    what is left of the decoration before and after it stays with the
    decoration's user. *)
Theorem update_splits_into_contiguous_marks
    (ds : DecorationSet) (tr : Transaction ChangeSet)
    (effect : AuthorshipUpdate) (l1 : list Range) (d : Range)
    (l2 : list Range) (s : State) :
  wf_set (RangeSet_map ds (changes tr)) →
  setInDocument (RangeSet_map ds (changes tr)) →
  effectInDocument effect →
  authorshipUpdates tr = [effect] →
  ranges (RangeSet_map ds (changes tr)) = l1 ++ d :: l2 →
  Forall (λ r, touches effect r = false) l1 →
  touches effect d = true →
  userOf d ≠ userId effect →
  upd_from effect < upd_to effect →
  ∃ s' res marks,
    update ds tr s = (s', inr res)
    ∧ ranges res ≡ₚ marks ++ l1 ++ l2
    ∧ contiguous (span <$> marks)
        (Z.min (from d) (upd_from effect)) (Z.max (to d) (upd_to effect))
    ∧ (upd_from effect, upd_to effect, userId effect) ∈ span <$> marks
    ∧ Forall (λ sp, sp = (upd_from effect, upd_to effect, userId effect)
                    ∨ sp.2 = userOf d) (span <$> marks).
Proof.
  intros Hwf _ _ Hsingle Hranges Hl1 Hd Huser He.
  rewrite (update_single _ _ _ ds tr effect s Hsingle).
  pose proof (wf_set_nonempty _ _ _ _ Hwf Hranges) as Hne.
  assert (Hrepl :
    Forall nonempty_span (replacement effect d)
    ∧ contiguous (replacement effect d)
        (Z.min (from d) (upd_from effect)) (Z.max (to d) (upd_to effect))
    ∧ (upd_from effect, upd_to effect, userId effect) ∈ replacement effect d
    ∧ Forall (λ sp, sp = (upd_from effect, upd_to effect, userId effect)
                    ∨ sp.2 = userOf d) (replacement effect d)).
  { unfold replacement, nonempty_span.
    rewrite (bool_decide_eq_false_2 _ Huser).
    decided (from d < upd_from effect); decided (upd_to effect < to d);
      cbn [app contiguous]; split_and!;
      try lia;
      try (repeat (apply Forall_cons_2; [cbn; first [lia | by left | by right]|]);
           apply Forall_nil_2);
      repeat first [by left | right]. }
  destruct Hrepl as (Hspans & Hcontiguous & Hin & Husers).
  destruct (applyEffect_handles authorship_highlight
              createRealtimeColorCssClass effect
              (RangeSet_map ds (changes tr)) l1 d l2 s)
    as (res & Hrun & Hperm & _); try done.
  eexists _, res, _. split_and!; [exact Hrun|exact Hperm|..];
    by rewrite span_marksOf.
Qed.

End Field.

(** ** The theorems at work on examples *)


Lemma update_marks_unattributed_text_witness :
  let dA := example_mark ["A"] 0 5 "A" in
  ∃ s' res,
    example_update [[dA]] (example_transaction [example_effect 7 9 "B"])
                   (example_state ["A"])
    = (s', inr res)
    ∧ colorSet s' = Set_add "B" ["A"]
    ∧ ranges res ≡ₚ example_mark ["A"] 7 9 "B" :: [dA]
    ∧ (example_map [[dA]] tt = none → res = [[example_mark ["A"] 7 9 "B"]]).
Proof.
  cbn zeta.
  apply (update_marks_unattributed_text example_highlight example_color
           example_map [[example_mark ["A"] 0 5 "A"]]
           (example_transaction [example_effect 7 9 "B"])
           (example_effect 7 9 "B") (example_state ["A"])).
  - apply wf_set_example; [done| |]; repeat constructor; cbn; lia.
  - apply setInDocument_example.
    repeat (apply Forall_cons_2; [vm_compute; intuition discriminate|]).
    apply Forall_nil_2.
  - vm_compute. intuition discriminate.
  - reflexivity.
  - repeat constructor.
  - cbn. lia.
Defined.

Lemma update_recreates_own_decoration_witness :
  let dA := example_mark ["A"] 0 10 "A" in
  ∃ s' res,
    example_update [[dA]] (example_transaction [example_effect 8 12 "A"])
                   (example_state ["A"])
    = (s', inr res)
    ∧ ranges res ≡ₚ example_mark ["A"] 0 10 "A" :: [] ++ []
    ∧ span <$> ranges res ≡ₚ span <$> ranges (example_map [[dA]] tt).
Proof.
  cbn zeta.
  apply (update_recreates_own_decoration example_highlight example_color
           example_map [[example_mark ["A"] 0 10 "A"]]
           (example_transaction [example_effect 8 12 "A"])
           (example_effect 8 12 "A") [] (example_mark ["A"] 0 10 "A") []
           (example_state ["A"])).
  - apply wf_set_example; [done| |]; repeat constructor; cbn; lia.
  - apply setInDocument_example.
    repeat (apply Forall_cons_2; [vm_compute; intuition discriminate|]).
    apply Forall_nil_2.
  - vm_compute. intuition discriminate.
  - reflexivity.
  - reflexivity.
  - constructor.
  - vm_compute. reflexivity.
  - vm_compute. reflexivity.
  - intros [Hadj|Hadj]; cbn in Hadj; lia.
Defined.


Lemma update_count_never_decreases_witness :
  let set := [[example_mark ["A"] 0 10 "A"]] in
  let tr := example_transaction [example_effect 3 4 "B"] in
  let res :=
    [[example_mark ["A"] 0 3 "A"; example_mark ["A"] 3 4 "B";
      example_mark ["A"; "B"] 4 10 "A"]] in
  (example_update set tr (example_state ["A"])).2 = inr res
  ∧ (length (ranges (example_map set (changes tr))) ≤ length (ranges res)
     ≤ length (ranges (example_map set (changes tr)))
       + 2 * length (authorshipUpdates tr))%nat.
Proof.
  cbn zeta. split; [vm_compute; reflexivity|].
  apply (update_count_never_decreases example_highlight example_color
           example_map [[example_mark ["A"] 0 10 "A"]]
           (example_transaction [example_effect 3 4 "B"])
           (example_state ["A"])
           (example_update [[example_mark ["A"] 0 10 "A"]]
              (example_transaction [example_effect 3 4 "B"])
              (example_state ["A"])).1).
  - apply wf_set_example; [done| |]; repeat constructor; cbn; lia.
  - apply setInDocument_example.
    repeat (apply Forall_cons_2; [vm_compute; intuition discriminate|]).
    apply Forall_nil_2.
  - apply Forall_cons_2; [vm_compute; intuition discriminate|apply Forall_nil_2].
  - vm_compute. reflexivity.
Defined.

Lemma update_splits_into_contiguous_marks_witness :
  let dA := example_mark ["A"] 0 10 "A" in
  let effect := example_effect 3 4 "B" in
  ∃ s' res marks,
    example_update [[dA]] (example_transaction [effect]) (example_state ["A"])
    = (s', inr res)
    ∧ ranges res ≡ₚ marks ++ [] ++ []
    ∧ contiguous (span <$> marks) (Z.min 0 3) (Z.max 10 4)
    ∧ (3, 4, "B") ∈ span <$> marks
    ∧ Forall (λ sp, sp = (3, 4, "B") ∨ sp.2 = userOf dA) (span <$> marks).
Proof.
  cbn zeta.
  apply (update_splits_into_contiguous_marks example_highlight example_color
           example_map [[example_mark ["A"] 0 10 "A"]]
           (example_transaction [example_effect 3 4 "B"])
           (example_effect 3 4 "B") [] (example_mark ["A"] 0 10 "A") []
           (example_state ["A"])).
  - apply wf_set_example; [done| |]; repeat constructor; cbn; lia.
  - apply setInDocument_example.
    repeat (apply Forall_cons_2; [vm_compute; intuition discriminate|]).
    apply Forall_nil_2.
  - vm_compute. intuition discriminate.
  - reflexivity.
  - reflexivity.
  - constructor.
  - vm_compute. reflexivity.
  - vm_compute. discriminate.
  - cbn. lia.
Defined.

End AuthorshipInvariants.
